(** * A shallow embedding of hwy/nanobenchmark.cc

    The robust statistics (CountingSort, MinRange, ModeOfSorted, Median,
    MedianAbsoluteDeviation), the adaptive sampler SampleUntilStable, the
    input planner (UniqueInputs, NumSkip, ReplicateInputs, FillSubset) and
    the orchestrator Measure; the timer resolution and, on x86, the brand
    string and the nominal clock rate.

    Conventions:
    - [Ticks], [FuncInput] and [size_t] are 64-bit unsigned integers,
      modelled as [Z] in [0, 2^64) with the wrap-around written out
      ([wrap64]); loop counters and indices are [nat].
    - Arrays are [list Z]; a read out of range is undefined behaviour and
      yields the [UB] outcome; [std::vector] construction above
      [max_size()] throws ([Throw]); a failed NANOBENCHMARK_CHECK with checks
      enabled aborts ([Abort]).
    - What the file cannot know (floating point, the timer, the Mersenne
      Twister, the check macro of the header) is a field of the [Platform]
      class, so every theorem holds for every platform. *)

From Stdlib Require Import ZArith QArith Qround Lia FinFun.
From stdpp Require Import base list sorting.
From Stdlib Require Strings.Ascii Strings.String.
Import (notations) Stdlib.Strings.Ascii Stdlib.Strings.String.

Open Scope Z_scope.

(** ** Outcomes and the platform *)

Inductive outcome (A : Type) : Type :=
  | Ret (a : A)
  | Abort   (* abort() from a failed NANOBENCHMARK_CHECK *)
  | Throw   (* std::length_error from a std::vector larger than max_size() *)
  | UB.     (* an out-of-bounds array access *)
Arguments Ret {A} a.
Arguments Abort {A}.
Arguments Throw {A}.
Arguments UB {A}.

Global Instance outcome_ret : MRet outcome := @Ret.
Global Instance outcome_bind : MBind outcome := fun A B f m =>
  match m with
  | Ret a => f a
  | Abort => Abort
  | Throw => Throw
  | UB => UB
  end.

(** What the translation unit takes from its environment.  [checks]
    says whether NANOBENCHMARK_CHECK evaluates its condition; [tick_delta k]
    is the [t1 - t0] observed around the [k]-th timed call of a closure;
    [Double] and [F32] are the floating-point types with the few operations
    the code applies to them; [Rng] is [std::mt19937] and [uniform_int g n]
    is [std::uniform_int_distribution<size_t>(0, n)(g)] as [std::shuffle]
    draws it. *)
Class Platform := {
  checks : bool;
  tick_delta : nat -> Z;
  timer_resolution : Z;
  Double : Type;
  d_zero : Double;                    (* 0.0 *)
  d_ratio : Z -> Z -> Double;         (* static_cast<double>(a) / static_cast<double>(b) *)
  d_le : Double -> Double -> bool;    (* a <= b *)
  d_max : Double -> Double -> Double; (* HWY_MAX(a, b) *)
  ticks_per_eval_of : Double -> Z;    (* static_cast<size_t>(ticks_per_second * s) *)
  F32 : Type;
  f32_ticks : Z -> Z -> F32;          (* static_cast<float>(duration) * (1.0f / float(int(num_skip))) *)
  f32_of_double : Double -> F32;      (* static_cast<float>(d) *)
  Rng : Type;
  rng_default : Rng;                  (* std::mt19937 rng; (default seed) *)
  uniform_int : Rng -> nat -> nat * Rng
}.

(** ** Machine integers *)

Definition wrap64 (z : Z) : Z := z mod 2 ^ 64.
Definition u64_max : Z := 2 ^ 64 - 1.
Definition wrap32 (z : Z) : Z := z mod 2 ^ 32.
(** [int64_t(v)] of a value below 2^64. *)
Definition to_i64 (z : Z) : Z := if z <? 2 ^ 63 then z else z - 2 ^ 64.
(** libstdc++'s [std::vector<uint64_t>::max_size()]: PTRDIFF_MAX / 8. *)
Definition vector_max_size : Z := 2 ^ 60 - 1.

Section Core.
Context `{Platform}.

(** Modelled from the spec: NANOBENCHMARK_CHECK, defined in
    hwy/nanobenchmark.h which is not part of src/. The spec calls it a
    debug-mode assertion: with checks enabled a false condition aborts,
    otherwise the macro expands to nothing.  Median's
    NANOBENCHMARK_CHECK(!values->empty()) only compiles when the macro drops
    its argument, so the file as written builds with checks disabled
    ([checks = false]). *)
Definition CHECK (cond : bool) : outcome unit :=
  if checks && negb cond then Abort else Ret tt.

(** [a[i]]. *)
Definition at_ {A} (a : list A) (i : nat) : outcome A :=
  match a !! i with Some x => Ret x | None => UB end.

(** [std::vector<T> v(n)] / [v.assign(n, x)]. *)
Definition vector_n {A} (n : Z) (x : A) : outcome (list A) :=
  if vector_max_size <? n then Throw else Ret (replicate (Z.to_nat n) x).

(** [std::sort] on integers: the sorted permutation. *)
Definition std_sort (l : list Z) : list Z := merge_sort Z.le l.

(** ** Robust statistics *)

(** One step of the first loop of CountingSort: [std::find_if] for
    [value]; [push_back({value, 1})] when absent, else [++pos->second].
    The [int] counter is a [nat]; it never exceeds [num_values], so the
    model is exact for arrays of at most [INT_MAX = 2^31 - 1] values.  On
    larger arrays [++pos->second] may overflow (undefined behaviour), which
    this model does not represent. *)
Fixpoint cs_insert (unique : list (Z * nat)) (value : Z) : list (Z * nat) :=
  match unique with
  | [] => [(value, 1%nat)]
  | (v, c) :: rest =>
      if Z.eqb v value then (v, S c) :: rest else (v, c) :: cs_insert rest value
  end.

(** [operator<=] on [std::pair<T, int>]: lexicographic. *)
Definition pair_le (a b : Z * nat) : Prop :=
  a.1 < b.1 \/ (a.1 = b.1 /\ (a.2 <= b.2)%nat).
Global Instance pair_le_dec : RelDecision pair_le.
Proof. intros a b. unfold pair_le. apply _. Defined.

(** The last loop: [std::fill] that many copies of each unique value. *)
Definition cs_expand (unique : list (Z * nat)) : list Z :=
  flat_map (fun vc => replicate vc.2 vc.1) unique.

Definition CountingSort (values : list Z) : outcome (list Z) :=
  let unique := foldl cs_insert [] values in
  let unique := merge_sort pair_le unique in
  let out := cs_expand unique in
  CHECK (length out =? length values)%nat;;
  Ret out.

(** The loop of MinRange, from [idx] with [n] iterations left. *)
Fixpoint min_range_loop (sorted : list Z) (half_count : nat) (idx n : nat)
    (min_range : Z) (min_idx : nat) : outcome nat :=
  match n with
  | O => Ret min_idx
  | S n' =>
      lo ← at_ sorted idx;
      hi ← at_ sorted (idx + half_count);
      CHECK (lo <=? hi);;
      let range := wrap64 (hi - lo) in
      if range <? min_range
      then min_range_loop sorted half_count (S idx) n' range idx
      else min_range_loop sorted half_count (S idx) n' min_range min_idx
  end.

Definition MinRange (sorted : list Z) (idx_begin half_count : nat) : outcome nat :=
  min_range_loop sorted half_count idx_begin half_count u64_max 0.

(** The halving loop of ModeOfSorted; [fuel] bounds the iterations and
    [ModeOfSorted] passes [num_values], which is never reached. *)
Fixpoint mode_loop (sorted : list Z) (fuel idx_begin half_count : nat)
    : outcome (nat * nat) :=
  match fuel with
  | O => Ret (idx_begin, half_count)
  | S fuel' =>
      if (1 <? half_count)%nat then
        idx_begin' ← MinRange sorted idx_begin half_count;
        mode_loop sorted fuel' idx_begin' (Nat.div2 half_count)  (* half_count >>= 1 *)
      else Ret (idx_begin, half_count)
  end.

Definition ModeOfSorted (sorted : list Z) (num_values : nat) : outcome Z :=
  '(idx_begin, half_count) ← mode_loop sorted num_values 0 (Nat.div2 num_values);
  x ← at_ sorted (idx_begin + 0);
  if (half_count =? 0)%nat then Ret x else
  CHECK (half_count =? 1)%nat;;
  y ← at_ sorted (idx_begin + 1);
  Ret (wrap64 (x + y + 1) / 2).

(** [Mode(values, num_values)]: the mode and the array it leaves sorted. *)
Definition Mode (values : list Z) : outcome (Z * list Z) :=
  sorted ← CountingSort values;
  m ← ModeOfSorted sorted (length sorted);
  Ret (m, sorted).

(** [Median(values, num_values)]: the median and the array it leaves
    sorted.  Its NANOBENCHMARK_CHECK(!values->empty()) names a member that
    [T*] does not have: it only compiles when the macro drops its argument,
    so it contributes nothing here. *)
Definition Median (values : list Z) : outcome (Z * list Z) :=
  let sorted := std_sort values in
  let num_values := length sorted in
  let half := Nat.div2 num_values in
  if Nat.odd num_values then
    m ← at_ sorted half; Ret (m, sorted)
  else
    a ← at_ sorted half;
    (* half - 1 in size_t: 0 - 1 is 2^64 - 1, out of range *)
    b ← (if (half =? 0)%nat then UB else at_ sorted (half - 1));
    Ret (wrap64 (a + b + 1) / 2, sorted).

(** [MedianAbsoluteDeviation]: [std::abs(int64_t(v) - int64_t(median))]
    cast back to [T]. *)
Definition MedianAbsoluteDeviation (values : list Z) (median : Z) : outcome Z :=
  CHECK (negb (length values =? 0)%nat);;
  let abs_deviations :=
    map (fun v => wrap64 (Z.abs (to_i64 v - to_i64 median))) values in
  '(m, _) ← Median abs_deviations;
  Ret m.


(** ** The adaptive sampler *)

(** The fields of [Params] the engine reads (nanobenchmark.h); [verbose]
    only selects diagnostic prints. *)
Record Params := {
  seconds_per_eval : Double;
  min_samples_per_eval : Z;
  min_mode_samples : Z;
  target_rel_mad : Double;
  max_evals : Z;
  subset_ratio : Z;
  precision_divisor : Z;
  verbose : bool
}.

(** [samples.reserve(n)]. *)
Definition reserve (n : Z) : outcome unit :=
  if vector_max_size <? n then Throw else Ret tt.

(** The ticks of [n] timed calls of the closure after the first [k]. *)
Definition timed_samples (k n : nat) : list Z :=
  map (fun i => wrap64 (tick_delta (k + i))) (seq 0 n).

(** The central estimate of a round: Mode for [p.min_mode_samples] or more
    samples, else Median; both sort [samples] in place. *)
Definition central_estimate (p : Params) (samples : list Z) : outcome (Z * list Z) :=
  if min_mode_samples p <=? Z.of_nat (length samples)
  then Mode samples else Median samples.

(** The [eval] loop of SampleUntilStable with [rounds] iterations left;
    [k] counts the timed calls of the closure so far.  Mode and Median sort
    [samples] in place, and later rounds append to the sorted buffer. *)
Fixpoint sus_rounds (max_rel_mad : Double) (p : Params) (max_abs_mad : Z)
    (rounds : nat) (samples_per_eval : Z) (samples : list Z) (k : nat)
    (est : Z) (rel_mad : Double) : outcome (Z * Double * nat) :=
  match rounds with
  | O => Ret (est, rel_mad, k)
  | S rounds' =>
      reserve (wrap64 (Z.of_nat (length samples) + samples_per_eval));;
      let n := Z.to_nat samples_per_eval in
      let samples := samples ++ timed_samples k n in
      let k := (k + n)%nat in
      '(est, samples) ← central_estimate p samples;
      CHECK (negb (est =? 0));;
      abs_mad ← MedianAbsoluteDeviation samples est;
      let rel_mad := d_ratio abs_mad est in
      if d_le rel_mad max_rel_mad || (abs_mad <=? max_abs_mad)
      then Ret (est, rel_mad, k)
      else sus_rounds max_rel_mad p max_abs_mad rounds'
             (wrap64 (samples_per_eval * 2)) samples k est rel_mad
  end.

(** [SampleUntilStable(max_rel_mad, &rel_mad, p, lambda)] started when [k]
    closure calls have been timed: the estimate, [*rel_mad] and the new
    count of timed calls. *)
Definition SampleUntilStable (max_rel_mad : Double) (p : Params) (k : nat)
    : outcome (Z * Double * nat) :=
  let est := wrap64 (tick_delta k) in
  let k := S k in
  let ticks_per_eval := ticks_per_eval_of (seconds_per_eval p) in
  let samples_per_eval :=
    if est =? 0 then min_samples_per_eval p else ticks_per_eval / est in
  let samples_per_eval := Z.max samples_per_eval (min_samples_per_eval p) in
  reserve (wrap64 (1 + samples_per_eval));;
  let samples := [est] in
  let max_abs_mad := wrap64 (timer_resolution + 99) / 100 in
  sus_rounds max_rel_mad p max_abs_mad (Z.to_nat (max_evals p))
    samples_per_eval samples k est d_zero.

(** ** The input planner *)

(** [std::unique] followed by [erase]. *)
Fixpoint std_unique (l : list Z) : list Z :=
  match l with
  | x :: ((y :: _) as rest) =>
      if Z.eqb x y then std_unique rest else x :: std_unique rest
  | _ => l
  end.

Definition UniqueInputs (inputs : list Z) : list Z :=
  std_unique (std_sort inputs).

Fixpoint num_skip_loop (unique : list Z) (p : Params) (min_duration : Z)
    (k : nat) : outcome (Z * nat) :=
  match unique with
  | [] => Ret (min_duration, k)
  | _ :: rest =>
      '(total, _, k) ← SampleUntilStable (target_rel_mad p) p k;
      num_skip_loop rest p
        (Z.min min_duration (wrap64 (total - timer_resolution))) k
  end.

Definition NumSkip (unique : list Z) (p : Params) (k : nat) : outcome (Z * nat) :=
  '(min_duration, k) ← num_skip_loop unique p u64_max k;
  let max_skip := precision_divisor p in
  let num_skip :=
    if min_duration =? 0 then 0
    else wrap64 (max_skip + min_duration - 1) / min_duration in
  Ret (num_skip, k).

(** [std::iter_swap(first + i, first + j)]. *)
Definition swap_at (v : list Z) (i j : nat) : list Z :=
  match v !! i, v !! j with
  | Some x, Some y => <[j:=x]> (<[i:=y]> v)
  | _, _ => v
  end.

Fixpoint shuffle_loop (g : Rng) (i n : nat) (v : list Z) : list Z * Rng :=
  match n with
  | O => (v, g)
  | S n' =>
      let '(j, g) := uniform_int g i in
      shuffle_loop g (S i) n' (swap_at v i j)
  end.

(** [std::shuffle(first, last, g)]: for [i] in [1, n), swap [first[i]]
    with [first[d(g, {0, i})]]. *)
Definition std_shuffle (v : list Z) (g : Rng) : list Z * Rng :=
  match v with
  | [] => (v, g)
  | _ => shuffle_loop g 1 (length v - 1) v
  end.

(** [ReplicateInputs(inputs, num_inputs, num_unique, num_skip, p)] with
    [num_inputs = length inputs]. *)
Definition ReplicateInputs (inputs : list Z) (num_unique num_skip : Z)
    (p : Params) : outcome (list Z) :=
  let copies := wrap64 (subset_ratio p * num_skip) in
  if num_unique =? 1 then
    x ← at_ inputs 0;
    vector_n copies x
  else
    reserve (wrap64 (copies * Z.of_nat (length inputs)));;
    let full := concat (replicate (Z.to_nat copies) inputs) in
    let rng := rng_default in
    Ret (std_shuffle full rng).1.

(** [omit.resize(n)] on a [std::vector<uint32_t>] (max_size() 2^61 - 1). *)
Definition resize_u32 (n : Z) (v : list Z) : outcome (list Z) :=
  if 2 ^ 61 - 1 <? n then Throw else Ret (resize (Z.to_nat n) 0 v).

(** The scan of FillSubset from [full]'s current element. *)
Fixpoint fill_loop (omit : list Z) (num_skip : Z) (input_to_skip : Z)
    (full : list Z) (occurrence : Z) (idx_omit idx_subset : nat)
    (subset : list Z) : outcome (Z * nat * nat * list Z) :=
  match full with
  | [] => Ret (occurrence, idx_omit, idx_subset, subset)
  | next :: rest =>
      step ←
        (if next =? input_to_skip then
           let occurrence := wrap32 (occurrence + 1) in
           if Z.of_nat idx_omit <? num_skip then
             o ← at_ omit idx_omit;
             Ret (if occurrence =? o then (occurrence, S idx_omit, true)
                  else (occurrence, idx_omit, false))
           else Ret (occurrence, idx_omit, false)
         else Ret (occurrence, idx_omit, false) : outcome (Z * nat * bool));
      let '(occurrence, idx_omit, skipped) := (step : Z * nat * bool) in
      if skipped then
        fill_loop omit num_skip input_to_skip rest occurrence idx_omit idx_subset subset
      else if (idx_subset <? length subset)%nat then
        fill_loop omit num_skip input_to_skip rest occurrence idx_omit
          (S idx_subset) (<[idx_subset:=next]> subset)
      else
        fill_loop omit num_skip input_to_skip rest occurrence idx_omit idx_subset subset
  end.

(** The [count] of FillSubset: [std::count(full.begin(), full.end(), v)]. *)
Definition count_of (v : Z) (l : list Z) : nat :=
  length (filter (fun x => x = v) l).

(** [FillSubset(full, input_to_skip, num_skip, subset)]: the new contents
    of [*subset]. *)
Definition FillSubset (full : list Z) (input_to_skip num_skip : Z)
    (subset : list Z) : outcome (list Z) :=
  let count := count_of input_to_skip full in
  let omit := map (fun i => wrap32 (Z.of_nat i)) (seq 0 count) in  (* std::iota *)
  let rng := rng_default in
  let omit := (std_shuffle omit rng).1 in
  omit ← resize_u32 num_skip omit;
  let omit := std_sort omit in
  '(occurrence, idx_omit, idx_subset, subset) ←
    fill_loop omit num_skip input_to_skip full (wrap32 (-1)) 0 0 subset;
  CHECK (idx_subset =? length subset)%nat;;
  CHECK (idx_omit =? length omit)%nat;;
  CHECK (occurrence =? wrap64 (Z.of_nat count - 1));;
  Ret subset.


(** ** The orchestrator *)

(** [TotalDuration] and [Overhead]: the closures they time (the loop over
    [inputs] calling [func] or [EmptyFunc]) are seen only through the
    observed ticks. *)
Definition TotalDuration (inputs : list Z) (p : Params) (max_rel_mad : Double)
    (k : nat) : outcome (Z * Double * nat) :=
  '(duration, rel_mad, k) ← SampleUntilStable (target_rel_mad p) p k;
  Ret (duration, d_max max_rel_mad rel_mad, k).

Definition Overhead (inputs : list Z) (p : Params) (k : nat) : outcome (Z * nat) :=
  '(overhead, _, k) ← SampleUntilStable d_zero p k;
  Ret (overhead, k).

Record Result := {
  r_input : Z;
  r_ticks : F32;
  r_variability : F32
}.

(** [results[i] = r] into the caller's array. *)
Definition store (results : list Result) (i : nat) (r : Result)
    : outcome (list Result) :=
  if (i <? length results)%nat then Ret (<[i:=r]> results) else UB.

(** Which [return] of Measure ends the call; [Exit_total i] is the
    [return 0] of the total-inversion check in iteration [i]. *)
Inductive exit :=
  | Exit_done
  | Exit_num_skip_zero
  | Exit_overhead
  | Exit_total (i : nat).

(** The loop over the unique inputs, from iteration [i]. *)
Fixpoint measure_loop (p : Params) (full : list Z)
    (num_skip total overhead overhead_skip : Z) (unique : list Z) (i : nat)
    (subset : list Z) (max_rel_mad : Double) (results : list Result) (k : nat)
    : outcome (exit * list Result * nat) :=
  match unique with
  | [] => Ret (Exit_done, results, k)
  | u :: rest =>
      subset ← FillSubset full u num_skip subset;
      '(total_skip, max_rel_mad, k) ← TotalDuration subset p max_rel_mad k;
      if total <? total_skip then Ret (Exit_total i, results, k) else
      let duration :=
        wrap64 (wrap64 (total - overhead) - wrap64 (total_skip - overhead_skip)) in
      results ← store results i
        {| r_input := u;
           r_ticks := f32_ticks duration num_skip;
           r_variability := f32_of_double max_rel_mad |};
      measure_loop p full num_skip total overhead overhead_skip rest (S i)
        subset max_rel_mad results k
  end.

(** [Measure(func, arg, inputs, num_inputs, results, p)] with
    [num_inputs = length inputs], started when [k] closure calls have been
    timed: how it ends, the caller's [results] array, and the new count. *)
Definition measure_run (inputs : list Z) (results : list Result) (p : Params)
    (k : nat) : outcome (exit * list Result * nat) :=
  CHECK (negb (length inputs =? 0)%nat);;
  let unique := UniqueInputs inputs in
  '(num_skip, k) ← NumSkip unique p k;
  if num_skip =? 0 then Ret (Exit_num_skip_zero, results, k) else
  full ← ReplicateInputs inputs (Z.of_nat (length unique)) num_skip p;
  subset ← vector_n (wrap64 (Z.of_nat (length full) - num_skip)) 0;
  '(overhead, k) ← Overhead full p k;
  '(overhead_skip, k) ← Overhead subset p k;
  if overhead <? overhead_skip then Ret (Exit_overhead, results, k) else
  '(total, max_rel_mad, k) ← TotalDuration full p d_zero k;
  measure_loop p full num_skip total overhead overhead_skip unique 0 subset
    max_rel_mad results k.

(** Measure's return value: [unique.size()] or 0. *)
Definition Measure (inputs : list Z) (results : list Result) (p : Params)
    (k : nat) : outcome (Z * list Result * nat) :=
  '(e, results, k) ← measure_run inputs results p k;
  Ret (match e with
       | Exit_done => Z.of_nat (length (UniqueInputs inputs))
       | _ => 0
       end, results, k).

End Core.

(** ** A concrete platform

    Doubles and floats as rationals, a linear congruential generator in
    place of the Mersenne Twister, no timer resolution, and [deltas] as the
    observed ticks. *)
Definition rational_platform (c : bool) (deltas : nat -> Z) : Platform := {|
  checks := c;
  tick_delta := deltas;
  timer_resolution := 0;
  Double := Q;
  d_zero := 0%Q;
  d_ratio := fun a b => (inject_Z a / inject_Z b)%Q;
  d_le := Qle_bool;
  d_max := fun a b => if Qle_bool a b then b else a;
  ticks_per_eval_of := fun s => Qfloor (inject_Z 1000000000 * s);
  F32 := Q;
  f32_ticks := fun d n => (inject_Z d / inject_Z n)%Q;
  f32_of_double := fun d => d;
  Rng := Z;
  rng_default := 5489;
  uniform_int := fun g n =>
    (Z.to_nat (g mod Z.of_nat (S n)), (g * 1103515245 + 12345) mod 2 ^ 31)
|}.

(** Parameters with one sample per round, Median only, [max_evals] rounds
    and a zero relative tolerance. *)
Definition small_params (c : bool) (deltas : nat -> Z)
    (max_evals precision_divisor : Z) : @Params (rational_platform c deltas) :=
  @Build_Params (rational_platform c deltas)
    0%Q        (* seconds_per_eval *)
    1          (* min_samples_per_eval *)
    1000       (* min_mode_samples *)
    0%Q        (* target_rel_mad *)
    max_evals
    2          (* subset_ratio *)
    precision_divisor
    false.     (* verbose *)

(** ** What FillSubset's loop computes

    [kept pending j v full]: the elements of [full] that the loop copies
    when the next occurrence of [v] is number [j] and [pending] are the
    occurrence numbers still to be omitted, in increasing order. *)
Fixpoint kept (pending : list Z) (j v : Z) (full : list Z) : list Z :=
  match full with
  | [] => []
  | x :: rest =>
      if x =? v then
        match pending with
        | t :: pending' =>
            if j =? t then kept pending' (j + 1) v rest
            else x :: kept pending (j + 1) v rest
        | [] => x :: kept [] (j + 1) v rest
        end
      else x :: kept pending j v rest
  end.

(** [subset[i++] = x] for the elements [x] of [l] in turn. *)
Fixpoint write_from (i : nat) (l subset : list Z) : list Z :=
  match l with
  | [] => subset
  | x :: l' => write_from (S i) l' (<[i:=x]> subset)
  end.

(** ** The timer resolution *)

Section Timer.
Context `{Platform}.

(** The outer loop of [platform::TimerResolution] from repetition [rep]
    on, [reps] repetitions left: each fills [samples] with
    [kTimerSamples] deltas [t1 - t0] (the [tick_delta]s of the next
    timings) and stores their [Mode] in [repetitions[rep]]. *)
Fixpoint timer_reps (kTimerSamples reps : nat) (k : nat) : outcome (list Z * nat) :=
  match reps with
  | O => Ret ([], k)
  | S reps' =>
      '(m, _) ← Mode (timed_samples k kTimerSamples);
      '(rest, k) ← timer_reps kTimerSamples reps' (k + kTimerSamples);
      Ret (m :: rest, k)
  end.

(** [platform::TimerResolution()]: the mode of the [kTimerSamples] modes.
    [kTimerSamples] is [Params::kTimerSamples] of hwy/nanobenchmark.h
    (not part of src/), kept as a parameter. *)
Definition TimerResolution (kTimerSamples : nat) (k : nat) : outcome (Z * nat) :=
  '(repetitions, k) ← timer_reps kTimerSamples kTimerSamples k;
  '(m, _) ← Mode repetitions;
  Ret (m, k).

End Timer.

(** ** The nominal clock rate (the x86 branch)

    [std::string] is a [list ascii]; [size_t] positions are [Z] in
    [0, 2^64) and [std::string::npos] is [2^64 - 1]. *)

Definition npos : Z := u64_max.

(** Whether [s] begins with [pat]. *)
Fixpoint starts_with (pat s : list Ascii.ascii) : bool :=
  match pat, s with
  | [], _ => true
  | c :: pat', d :: s' => Ascii.eqb c d && starts_with pat' s'
  | _ :: _, [] => false
  end.

(** The first position, counted from [i], at which [pat] occurs in [s]. *)
Fixpoint find_from (s pat : list Ascii.ascii) (i : Z) : Z :=
  if starts_with pat s then i else
  match s with
  | [] => npos
  | _ :: s' => find_from s' pat (i + 1)
  end.

(** [s.find(pat)]. *)
Definition string_find (s pat : list Ascii.ascii) : Z := find_from s pat 0.

(** The last position below [n] holding [c]. *)
Fixpoint rfind_below (s : list Ascii.ascii) (c : Ascii.ascii) (n : nat) : Z :=
  match n with
  | O => npos
  | S n' =>
      match s !! n' with
      | Some d => if Ascii.eqb d c then Z.of_nat n' else rfind_below s c n'
      | None => rfind_below s c n'
      end
  end.

(** [s.rfind(c, pos)]: the last [c] at a position at most [pos]; a [pos]
    past the end searches the whole string. *)
Definition string_rfind (s : list Ascii.ascii) (c : Ascii.ascii) (pos : Z) : Z :=
  match s with
  | [] => npos
  | _ => rfind_below s c (S (Z.to_nat (Z.min pos (Z.of_nat (length s) - 1))))
  end.

(** [s.substr(pos, n)]: throws [std::out_of_range] when [pos > size()]. *)
Definition substr (s : list Ascii.ascii) (pos n : Z) : outcome (list Ascii.ascii) :=
  if Z.of_nat (length s) <? pos then Throw
  else Ret (take (Z.to_nat (Z.min n (Z.of_nat (length s) - pos))) (drop (Z.to_nat pos) s)).

(** The four bytes [memcpy] copies out of a [uint32_t] on x86
    (little-endian). *)
Definition u32_bytes (w : Z) : list Z :=
  map (fun i => Z.land (Z.shiftr w (8 * i)) 255) [0; 1; 2; 3].

(** [std::string] built from a C string: the characters up to the first NUL. *)
Fixpoint c_str (bytes : list Z) : list Ascii.ascii :=
  match bytes with
  | [] => []
  | b :: rest => if b =? 0 then [] else Ascii.ascii_of_N (Z.to_N b) :: c_str rest
  end.

Section Clock.
Context `{Platform}.
(** [Cpuid(level, count, abcd)]: the four registers the instruction
    returns, each a [uint32_t]. *)
Variable Cpuid : Z -> Z -> Z * Z * Z * Z.
(** [std::stod], which may throw. *)
Variable stod : list Ascii.ascii -> outcome Double.
(** The product of a double and a multiplier [1E6], [1E9] or [1E12]. *)
Variable d_mul : Double -> Z -> Double.

(** The 16 bytes of [abcd] after [Cpuid(level, 0, abcd)]. *)
Definition cpuid_bytes (level : Z) : list Z :=
  let '(a, b, c, d) := Cpuid level 0 in flat_map u32_bytes [a; b; c; d].

(** [platform::BrandString()]: the 48 bytes of leaves [0x80000002] to
    [0x80000004] followed by [brand_string[48] = 0]. *)
Definition BrandString : list Ascii.ascii :=
  let '(a, _, _, _) := Cpuid 0x80000000 0 in
  if a <? 0x80000004 then [] else
  let brand_string := flat_map (fun i => cpuid_bytes (0x80000002 + i)) [0; 1; 2] in
  c_str (brand_string ++ [0]).

(** [prefixes] and [multipliers]. *)
Definition clock_units : list (list Ascii.ascii * Z) :=
  [(String.list_ascii_of_string "MHz", 10 ^ 6);
   (String.list_ascii_of_string "GHz", 10 ^ 9);
   (String.list_ascii_of_string "THz", 10 ^ 12)].

(** The loop of [NominalClockRate] over the remaining prefixes. *)
Fixpoint nominal_loop (brand_string : list Ascii.ascii) (units : list (list Ascii.ascii * Z))
    : outcome Double :=
  match units with
  | [] => Ret d_zero
  | (prefix, multiplier) :: units' =>
      let pos_prefix := string_find brand_string prefix in
      if pos_prefix =? npos then nominal_loop brand_string units' else
      let pos_space := string_rfind brand_string " "%char (wrap64 (pos_prefix - 1)) in
      if pos_space =? npos then nominal_loop brand_string units' else
      digits ← substr brand_string (wrap64 (pos_space + 1))
                 (wrap64 (pos_prefix - pos_space - 1));
      d ← stod digits;
      Ret (d_mul d multiplier)
  end.

(** [NominalClockRate()] on a given brand string. *)
Definition NominalClockRate_of (brand_string : list Ascii.ascii) : outcome Double :=
  nominal_loop brand_string clock_units.

(** [platform::NominalClockRate()]. *)
Definition NominalClockRate : outcome Double := NominalClockRate_of BrandString.

End Clock.

(** * Proofs *)

Ltac outcome_simpl := cbn [mbind outcome_bind] in *.

Section Statistics.
Context `{Platform}.

Lemma CHECK_not_UB (c : bool) : CHECK c <> UB.
Proof. unfold CHECK. destruct (checks && negb c); discriminate. Qed.

Lemma CHECK_true : CHECK true = Ret tt.
Proof. unfold CHECK. by destruct checks. Qed.

Lemma at_in_bounds {A} (a : list A) i :
  (i < length a)%nat -> exists x, at_ a i = Ret x /\ a !! i = Some x.
Proof.
  intros Hi. unfold at_. destruct (a !! i) as [x|] eqn:E.
  - by exists x.
  - apply lookup_ge_None in E. lia.
Qed.

(** *** CountingSort *)

Lemma cs_insert_perm (u : list (Z * nat)) v :
  cs_expand (cs_insert u v) ≡ₚ cs_expand u ++ [v].
Proof.
  induction u as [|[v' c] rest IH]; simpl; [done|].
  destruct (Z.eqb_spec v' v) as [->|_]; simpl.
  - by rewrite Permutation_cons_append, <- app_assoc.
  - rewrite IH. by rewrite app_assoc.
Qed.

Lemma cs_foldl_perm (values : list Z) (acc : list (Z * nat)) :
  cs_expand (foldl cs_insert acc values) ≡ₚ cs_expand acc ++ values.
Proof.
  revert acc. induction values as [|v values IH]; intros acc; simpl.
  - by rewrite app_nil_r.
  - rewrite IH, cs_insert_perm. by rewrite <- app_assoc.
Qed.

Global Instance pair_le_total : Total pair_le.
Proof.
  intros [a m] [b n]. unfold pair_le; simpl.
  destruct (Z.lt_trichotomy a b) as [?|[->|?]]; [left; by left| |right; by left].
  destruct (Nat.le_ge_cases m n); [left|right]; right; lia.
Qed.

Global Instance pair_le_trans : Transitive pair_le.
Proof. intros [a m] [b n] [c o]; unfold pair_le; simpl; lia. Qed.

Lemma cs_expand_sorted (u : list (Z * nat)) :
  StronglySorted pair_le u -> StronglySorted Z.le (cs_expand u).
Proof.
  induction 1 as [|[v c] rest Hs IH Hall]; simpl; [constructor|].
  apply StronglySorted_app_2; [|clear; induction c; simpl; constructor; [done|]|done].
  - intros x1 x2 Hx1 Hx2.
    apply elem_of_replicate in Hx1 as [-> _].
    unfold cs_expand in Hx2. apply list_elem_of_In, in_flat_map in Hx2
      as ([v' c'] & Hin & Hx2). simpl in Hx2.
    apply list_elem_of_In, elem_of_replicate in Hx2 as [-> _].
    rewrite Forall_forall in Hall. apply list_elem_of_In in Hin.
    specialize (Hall _ Hin). unfold pair_le in Hall; simpl in Hall. lia.
  - apply Forall_forall. intros x Hx. apply elem_of_replicate in Hx as [-> _]. lia.
Qed.

Lemma CountingSort_perm_sorted (values : list Z) :
  let out := cs_expand (merge_sort pair_le (foldl cs_insert [] values)) in
  out ≡ₚ values /\ StronglySorted Z.le out.
Proof.
  simpl. split.
  - unfold cs_expand. rewrite (merge_sort_Permutation pair_le).
    fold (cs_expand (foldl cs_insert [] values)).
    by rewrite cs_foldl_perm.
  - apply cs_expand_sorted, StronglySorted_merge_sort; apply _.
Qed.

(** *** MinRange and the halving loop of ModeOfSorted *)

Lemma min_range_loop_bounds (sorted : list Z) (half_count : nat) :
  forall n idx min_range min_idx,
    (idx + n + half_count <= length sorted)%nat ->
    min_range_loop sorted half_count idx n min_range min_idx <> UB /\
    forall r, min_range_loop sorted half_count idx n min_range min_idx = Ret r ->
      r = min_idx \/ (idx <= r < idx + n)%nat.
Proof.
  induction n as [|n IH]; intros idx min_range min_idx Hb; simpl.
  - split; [discriminate|]. intros r [= <-]. by left.
  - destruct (at_in_bounds sorted idx) as (lo & -> & _); [lia|].
    destruct (at_in_bounds sorted (idx + half_count)) as (hi & -> & _); [lia|].
    outcome_simpl. unfold CHECK.
    destruct (checks && negb (lo <=? hi)); [split; [discriminate|done]|].
    outcome_simpl.
    destruct (wrap64 (hi - lo) <? min_range).
    + destruct (IH (S idx) (wrap64 (hi - lo)) idx) as [IH1 IH2]; [lia|].
      split; [done|]. intros r Hr. apply IH2 in Hr. right. lia.
    + destruct (IH (S idx) min_range min_idx) as [IH1 IH2]; [lia|].
      split; [done|]. intros r Hr. apply IH2 in Hr. lia.
Qed.

Lemma mode_loop_bounds (sorted : list Z) :
  forall fuel idx_begin half_count,
    (half_count <= fuel)%nat ->
    (idx_begin + 2 * half_count <= length sorted)%nat ->
    mode_loop sorted fuel idx_begin half_count <> UB /\
    forall b h, mode_loop sorted fuel idx_begin half_count = Ret (b, h) ->
      (h <= 1)%nat /\ (b + 2 * h <= length sorted)%nat.
Proof.
  induction fuel as [|fuel IH]; intros b0 h0 Hf Hb; simpl.
  - split; [discriminate|]. intros b h [= <- <-]. lia.
  - destruct (Nat.ltb_spec 1 h0) as [Hlt|Hge].
    + unfold MinRange.
      destruct (min_range_loop_bounds sorted h0 h0 b0 u64_max 0) as [N R]; [lia|].
      destruct (min_range_loop sorted h0 b0 h0 u64_max 0) as [r| | |] eqn:E;
        outcome_simpl; try (split; [discriminate|done]); [|done].
      pose proof (Nat.div2_odd h0) as Hd.
      destruct (Nat.odd h0); simpl in Hd;
      (apply IH; [lia|]; destruct (R r eq_refl); lia).
    + split; [discriminate|]. intros b h [= <- <-]. lia.
Qed.

End Statistics.

Section StatisticsClaims.
Context `{Platform}.

(** C6: CountingSort rearranges any integer array (in particular one of at
    most 1024 values) into a permutation of it in non-decreasing order; its
    final check always holds, so it returns normally. *)
Theorem CountingSort_sorts (values : list Z) :
  exists out, CountingSort values = Ret out /\ out ≡ₚ values /\ Sorted Z.le out.
Proof.
  destruct (CountingSort_perm_sorted values) as [Hp Hs].
  unfold CountingSort.
  exists (cs_expand (merge_sort pair_le (foldl cs_insert [] values))).
  rewrite (Permutation_length Hp), Nat.eqb_refl, CHECK_true.
  split; [done|]. split; [done|]. by apply StronglySorted_Sorted.
Qed.

(** C5: in ModeOfSorted on an array of [num_values] elements, the halving
    loop never reads out of bounds (every MinRange read [sorted[idx]] and
    [sorted[idx + half_count]] goes through [at_], which is [UB] exactly on
    an index [>= num_values]) and, when it ends, [half_count <= 1] (it ends
    through its condition, never through the fuel bound). *)
Theorem ModeOfSorted_loop_in_bounds (sorted : list Z) :
  let num_values := length sorted in
  mode_loop sorted num_values 0 (Nat.div2 num_values) <> UB /\
  forall idx_begin half_count,
    mode_loop sorted num_values 0 (Nat.div2 num_values) = Ret (idx_begin, half_count) ->
    (half_count <= 1)%nat.
Proof.
  simpl. pose proof (Nat.div2_odd (length sorted)) as Hd.
  destruct (mode_loop_bounds sorted (length sorted) 0 (Nat.div2 (length sorted)))
    as [N R]; [destruct (Nat.odd (length sorted)); simpl in Hd; lia..|].
  split; [done|]. intros b h E. by destruct (R b h E).
Qed.

(** C2 (code bug): ModeOfSorted on the sorted array [2^64-1; 2^64-1]
    returns [2^63 - 1], below the array's minimum: the final average
    [(x + sorted[idx_begin + 1] + 1) / 2] wraps around in [uint64_t]. *)
Theorem ModeOfSorted_average_wraps :
  ModeOfSorted [u64_max; u64_max] 2 = Ret (2 ^ 63 - 1).
Proof. unfold ModeOfSorted, CHECK. simpl. destruct checks; reflexivity. Qed.

(** C7 (code bug): Median of [2^64-1; 2^64-1] is [2^63 - 1], not the
    rounded-up average [2^64 - 1] of its two middle elements: the sum
    [values[half] + values[half - 1] + 1] wraps around in [uint64_t].  The
    example of the spec, [Median [2; 4] = 3], holds. *)
Theorem Median_average_wraps :
  Median [u64_max; u64_max] = Ret (2 ^ 63 - 1, [u64_max; u64_max]) /\
  Median [2; 4] = Ret (3, [2; 4]).
Proof. split; reflexivity. Qed.

(** C8 (code bug): on the sorted array [0; 0; 2^64-1] with [idx_begin = 1]
    and [half_count = 1], MinRange returns 0, outside
    [[idx_begin, idx_begin + half_count)]: the only range equals the initial
    [min_range = max()], the strict [<] never fires and [min_idx] keeps its
    initial 0.  The spec's tie-break example returns 0 as stated. *)
Theorem MinRange_index_outside_range :
  MinRange [0; 0; u64_max] 1 1 = Ret 0%nat /\
  MinRange [0; 1; 2; 10; 11; 12] 0 3 = Ret 0%nat.
Proof. destruct H as [[] ]; split; reflexivity. Qed.

End StatisticsClaims.

Section Planner.
Context `{Platform}.

Lemma swap_at_perm (v : list Z) i j : swap_at v i j ≡ₚ v.
Proof.
  unfold swap_at. destruct (v !! i) as [x|] eqn:Ei; [|done].
  destruct (v !! j) as [y|] eqn:Ej; [|done].
  by apply Permutation_insert_swap.
Qed.

Lemma shuffle_loop_perm g i n (v : list Z) : (shuffle_loop g i n v).1 ≡ₚ v.
Proof.
  revert g i v. induction n as [|n IH]; intros g i v; simpl; [done|].
  destruct (uniform_int g i) as [j g']. by rewrite IH, swap_at_perm.
Qed.

Lemma std_shuffle_perm (v : list Z) g : (std_shuffle v g).1 ≡ₚ v.
Proof. destruct v; simpl; [done|]. apply shuffle_loop_perm. Qed.

Lemma concat_replicate_nil {A} n : concat (replicate n (@nil A)) = [].
Proof. induction n; simpl; auto. Qed.

Lemma num_skip_loop_nil p min_duration k :
  num_skip_loop [] p min_duration k = Ret (min_duration, k).
Proof. reflexivity. Qed.

End Planner.

Section PlannerClaims.
Context `{Platform}.

(** C9: ReplicateInputs builds a fresh [std::mt19937] with the default
    seed on every call ([rng_default]), so two calls with the same
    arguments return the same sequence; it is a permutation of
    [subset_ratio * num_skip] copies of the inputs (of [inputs[0]] alone
    when [num_unique == 1]). *)
Theorem ReplicateInputs_reproducible (inputs : list Z) (num_unique num_skip : Z)
    (p : Params) (full1 full2 : list Z) :
  ReplicateInputs inputs num_unique num_skip p = Ret full1 ->
  ReplicateInputs inputs num_unique num_skip p = Ret full2 ->
  full1 = full2 /\
  full1 ≡ₚ concat (replicate (Z.to_nat (wrap64 (subset_ratio p * num_skip)))
                    (if num_unique =? 1 then take 1 inputs else inputs)).
Proof.
  intros E1 E2. rewrite E1 in E2. injection E2 as <-. split; [done|].
  unfold ReplicateInputs in E1.
  destruct (num_unique =? 1).
  - destruct inputs as [|x rest]; [discriminate|]. simpl in E1 |- *.
    unfold vector_n in E1.
    destruct (vector_max_size <? _); [discriminate|]. injection E1 as <-.
    clear. induction (Z.to_nat _); simpl; [done|]. by rewrite IHn.
  - unfold reserve in E1. destruct (vector_max_size <? _); [discriminate|].
    outcome_simpl. injection E1 as <-. apply std_shuffle_perm.
Qed.

(** C4 (as amended): Measure with an empty input list writes no entry of
    [results]. With checks enabled it aborts at NANOBENCHMARK_CHECK(num_inputs
    != 0); otherwise NumSkip over no unique input leaves [min_duration = ~0],
    and [num_skip = (precision_divisor + ~0 - 1) / ~0] (mod 2^64) is 0 and
    Measure returns 0, except for [precision_divisor == 1], where [num_skip]
    is 1 and [InputVec subset(0 - 1)] throws [std::length_error]. *)
Theorem Measure_empty_inputs (p : Params) (results : list Result) (k : nat) :
  0 <= precision_divisor p < 2 ^ 64 ->
  Measure [] results p k =
    if checks then Abort
    else if precision_divisor p =? 1 then Throw
    else Ret (0, results, k).
Proof.
  intros Hpd. unfold Measure, measure_run, CHECK. simpl.
  destruct checks; [reflexivity|]. simpl.
  destruct (Z.eqb_spec (precision_divisor p) 1) as [E|Ne].
  - rewrite E. replace (wrap64 (1 + u64_max - 1) / u64_max) with 1 by reflexivity.
    simpl. unfold ReplicateInputs, reserve. simpl. rewrite Z.mul_0_r.
    simpl. rewrite concat_replicate_nil. reflexivity.
  - assert (wrap64 (precision_divisor p + u64_max - 1) / u64_max = 0) as ->.
    { unfold wrap64, u64_max.
      destruct (Z.eq_dec (precision_divisor p) 0) as [->|Hn0].
      - reflexivity.
      - rewrite (Z.mod_eq _ (2 ^ 64)) by lia.
        replace ((precision_divisor p + (2 ^ 64 - 1) - 1) / 2 ^ 64) with 1.
        + apply Z.div_small. lia.
        + apply Z.div_unique with (precision_divisor p - 2); lia. }
    reflexivity.
Qed.

End PlannerClaims.

(** C4: Measure on an empty input list does not return 0 when checks are
    disabled and [precision_divisor == 1]: it throws. *)
Lemma Measure_empty_inputs_throws :
  @Measure (rational_platform false (fun _ => 0)) [] []
    (small_params false (fun _ => 0) 1 1) 0 = Throw.
Proof. reflexivity. Qed.

(** C4: the amended statement at [precision_divisor = 1024], checks off. *)
Lemma Measure_empty_inputs_witness :
  0 <= 1024 < 2 ^ 64 /\
  @Measure (rational_platform false (fun _ => 0)) [] []
    (small_params false (fun _ => 0) 1 1024) 0 = Ret (0, [], 0%nat).
Proof.
  split; [lia|].
  exact (Measure_empty_inputs (small_params false (fun _ => 0) 1 1024) [] 0
           ltac:(cbn; lia)).
Defined.

(** C9: two calls on inputs [1; 2; 3] with [subset_ratio = 2] and
    [num_skip = 1] give the same shuffled copy of the inputs. *)
Lemma ReplicateInputs_reproducible_witness :
  let P := rational_platform false (fun _ => 0) in
  let p := small_params false (fun _ => 0) 1 1 in
  ReplicateInputs (H := P) [1; 2; 3] 3 1 p = Ret [3; 3; 1; 2; 1; 2] /\
  [3; 3; 1; 2; 1; 2] = [3; 3; 1; 2; 1; 2] /\
  [3; 3; 1; 2; 1; 2] ≡ₚ concat (replicate (Z.to_nat (wrap64 (subset_ratio p * 1)))
                          (if 3 =? 1 then take 1 [1; 2; 3] else [1; 2; 3])).
Proof.
  intros P p.
  assert (E : ReplicateInputs (H := P) [1; 2; 3] 3 1 p = Ret [3; 3; 1; 2; 1; 2])
    by reflexivity.
  split; [exact E|].
  exact (ReplicateInputs_reproducible [1; 2; 3] 3 1 p _ _ E E).
Defined.

(** C3: on a closure whose every timed delta is 0, with checks disabled,
    SampleUntilStable returns the estimate 0 after one sampling round (the
    zero median has [abs_mad = 0 <= max_abs_mad]). *)
Lemma SampleUntilStable_returns_zero :
  @SampleUntilStable (rational_platform false (fun _ => 0)) 0%Q
    (small_params false (fun _ => 0) 1 1) 0 = Ret (0, 0%Q, 2%nat).
Proof. reflexivity. Qed.

Section Harness.
Context `{Platform}.

Lemma bind_Ret_inv {A B} (f : A -> outcome B) (m : outcome A) (b : B) :
  (x ← m; f x) = Ret b -> exists a, m = Ret a /\ f a = Ret b.
Proof. destruct m as [a| | |]; simpl; [eauto|discriminate..]. Qed.

(** The loop over the unique inputs, entered at iteration [i0], that stops
    at the total-inversion check of iteration [i] has stored a result for
    every earlier iteration since [i0] and left every other entry as it
    was. *)
Lemma measure_loop_total p full num_skip total overhead overhead_skip unique
    i0 subset max_rel_mad results k i results' k' :
  measure_loop p full num_skip total overhead overhead_skip unique i0 subset
    max_rel_mad results k = Ret (Exit_total i, results', k') ->
  (i0 <= i)%nat /\
  (forall j, (i0 <= j < i)%nat ->
     exists r, results' !! j = Some r /\ unique !! (j - i0)%nat = Some (r_input r)) /\
  (forall j, (j < i0 \/ i <= j)%nat -> results' !! j = results !! j).
Proof.
  revert i0 subset max_rel_mad results k.
  induction unique as [|u rest IH]; intros i0 subset max_rel_mad results k E;
    simpl in E; [discriminate|].
  apply bind_Ret_inv in E as [subset' [_ E]].
  apply bind_Ret_inv in E as [[[total_skip mrm] k1] [_ E]]. simpl in E.
  destruct (total <? total_skip).
  - injection E as -> -> _. split; [lia|]. split; [intros; lia | done].
  - apply bind_Ret_inv in E as [results1 [Hst E]].
    unfold store in Hst. destruct (Nat.ltb_spec i0 (length results)) as [Hlt|];
      [|discriminate].
    injection Hst as <-.
    destruct (IH _ _ _ _ _ E) as (Hle & Hw & Hk).
    split; [lia|]. split.
    + intros j Hj. destruct (decide (j = i0)) as [->|Hne].
      * eexists. split.
        -- rewrite Hk by lia. by apply list_lookup_insert_eq.
        -- by rewrite Nat.sub_diag.
      * destruct (Hw j) as (r & Hr & Hu); [lia|].
        exists r. split; [done|].
        replace (j - i0)%nat with (S (j - S i0)) by lia. done.
    + intros j Hj. rewrite Hk by lia. apply list_lookup_insert_ne. lia.
Qed.

End Harness.

Section HarnessClaims.
Context `{Platform}.

(** C10: Measure is not atomic for the caller's [results]: when the
    total-inversion check [total < total_skip] ends the call in iteration
    [i > 0], Measure returns 0, [results[0..i-1]] hold the results stored
    for the first [i] unique inputs, and every later entry is untouched;
    nothing is restored or cleared. *)
Theorem Measure_total_inversion_not_atomic (inputs : list Z)
    (results results' : list Result) (p : Params) (k k' i : nat) :
  (0 < i)%nat ->
  measure_run inputs results p k = Ret (Exit_total i, results', k') ->
  Measure inputs results p k = Ret (0, results', k') /\
  (forall j, (j < i)%nat ->
     exists r, results' !! j = Some r /\ UniqueInputs inputs !! j = Some (r_input r)) /\
  (forall j, (i <= j)%nat -> results' !! j = results !! j).
Proof.
  intros Hi E. split; [unfold Measure; by rewrite E|].
  unfold measure_run in E.
  apply bind_Ret_inv in E as [_ [_ E]].
  apply bind_Ret_inv in E as [[num_skip k1] [_ E]]. simpl in E.
  destruct (num_skip =? 0); [discriminate|].
  apply bind_Ret_inv in E as [full [_ E]].
  apply bind_Ret_inv in E as [subset [_ E]].
  apply bind_Ret_inv in E as [[overhead k2] [_ E]]. simpl in E.
  apply bind_Ret_inv in E as [[overhead_skip k3] [_ E]]. simpl in E.
  destruct (overhead <? overhead_skip); [discriminate|].
  apply bind_Ret_inv in E as [[[total mrm] k4] [_ E]]. simpl in E.
  destruct (measure_loop_total _ _ _ _ _ _ _ _ _ _ _ _ _ _ _ E) as (_ & Hw & Hk).
  split.
  - intros j Hj. destruct (Hw j) as (r & Hr & Hu); [lia|].
    exists r. rewrite Nat.sub_0_r in Hu. done.
  - intros j Hj. apply Hk. lia.
Qed.

End HarnessClaims.

(** C10: with inputs [1; 2], whose second iteration sees [total <
    total_skip], Measure returns 0 with [results[0]] already written. *)
Lemma Measure_total_inversion_not_atomic_witness :
  let dl := fun k : nat =>
    if (k <? 10)%nat then 10 else if (k <? 12)%nat then 5 else 20 in
  let P := rational_platform true dl in
  let R0 := @Build_Result P 0 0%Q 0%Q in
  let R1 := @Build_Result P 1 5%Q (0 # 5)%Q in
  (0 < 1)%nat /\
  measure_run (H := P) [1; 2] [R0; R0] (small_params true dl 1 1) 0
    = Ret (Exit_total 1, [R1; R0], 14%nat) /\
  Measure (H := P) [1; 2] [R0; R0] (small_params true dl 1 1) 0
    = Ret (0, [R1; R0], 14%nat).
Proof.
  intros dl P R0 R1.
  assert (E : measure_run (H := P) [1; 2] [R0; R0] (small_params true dl 1 1) 0
                = Ret (Exit_total 1, [R1; R0], 14%nat)) by reflexivity.
  split; [lia|]. split; [exact E|].
  exact (proj1 (Measure_total_inversion_not_atomic _ _ _ _ _ _ 1 (Nat.lt_0_succ 0) E)).
Defined.

Section Subset.
Context `{Platform}.

Lemma count_of_cons u x l :
  count_of u (x :: l) = if x =? u then S (count_of u l) else count_of u l.
Proof.
  unfold count_of. rewrite filter_cons.
  destruct (Z.eqb_spec x u); case_decide; simpl; congruence.
Qed.

Lemma write_from_app i l p s :
  length p = i -> (length l <= length s)%nat ->
  write_from i l (p ++ s) = p ++ l ++ drop (length l) s.
Proof.
  revert i p s. induction l as [|x l IH]; intros i p s Hp Hl; simpl; [done|].
  destruct s as [|y s]; simpl in Hl; [lia|].
  rewrite insert_app_r_alt by lia. rewrite Hp, Nat.sub_diag. simpl.
  replace (p ++ x :: s) with ((p ++ [x]) ++ s) by (by rewrite <- app_assoc).
  rewrite IH; [|rewrite length_app; simpl; lia|lia].
  by rewrite <- app_assoc.
Qed.

Lemma write_from_all l s :
  length l = length s -> write_from 0 l s = l.
Proof.
  intros Hl. rewrite <- (app_nil_l s). rewrite write_from_app by (simpl; lia).
  rewrite drop_ge by lia. by rewrite !app_nil_r.
Qed.

Lemma kept_spec v rest : forall pending j,
  StronglySorted Z.lt pending ->
  Forall (fun t => j <= t < j + Z.of_nat (count_of v rest)) pending ->
  (length (kept pending j v rest) + length pending = length rest)%nat /\
  (count_of v (kept pending j v rest) + length pending = count_of v rest)%nat /\
  (forall u, u <> v -> count_of u (kept pending j v rest) = count_of u rest) /\
  kept pending j v rest `sublist_of` rest.
Proof.
  induction rest as [|x rest IH]; intros pending j Hs Hf.
  - destruct pending as [|t pending].
    + simpl. split; [done|]. split; [done|]. split; [done|]. constructor.
    + inversion Hf as [|? ? Ht]. change (count_of v []) with 0%nat in Ht. lia.
  - rewrite count_of_cons in Hf. simpl kept.
    destruct (Z.eqb_spec x v) as [->|Hxv].
    + destruct pending as [|t pending].
      * destruct (IH [] (j + 1)) as (Hl & Hc & Hu & Hsub); [constructor|constructor|].
        simpl. rewrite !count_of_cons, Z.eqb_refl. simpl in Hl, Hc.
        split; [lia|]. split; [lia|]. split; [|by apply sublist_skip].
        intros u Hu'. rewrite !count_of_cons. destruct (Z.eqb_spec v u); [congruence|].
        by apply Hu.
      * apply StronglySorted_inv in Hs as [Hs Hlt].
        rewrite Forall_cons in Hf. destruct Hf as [Ht Hf].
        destruct (Z.eqb_spec j t) as [<-|Hjt].
        -- destruct (IH pending (j + 1)) as (Hl & Hc & Hu & Hsub); [done| |].
           { rewrite Forall_forall in Hf, Hlt |- *. intros t' Ht'.
             specialize (Hf t' Ht'). specialize (Hlt t' Ht'). lia. }
           simpl. rewrite count_of_cons, Z.eqb_refl.
           split; [lia|]. split; [lia|]. split; [|by apply sublist_cons].
           intros u Hu'. rewrite count_of_cons. destruct (Z.eqb_spec v u); [congruence|].
           by apply Hu.
        -- destruct (IH (t :: pending) (j + 1)) as (Hl & Hc & Hu & Hsub).
           { by constructor. }
           { constructor; [lia|]. rewrite Forall_forall in Hf, Hlt |- *. intros t' Ht'.
             specialize (Hf t' Ht'). specialize (Hlt t' Ht'). lia. }
           simpl in Hl, Hc |- *. rewrite !count_of_cons, Z.eqb_refl.
           split; [lia|]. split; [lia|]. split; [|by apply sublist_skip].
           intros u Hu'. rewrite !count_of_cons. destruct (Z.eqb_spec v u); [congruence|].
           by apply Hu.
    + destruct (IH pending j) as (Hl & Hc & Hu & Hsub); [done|done|].
      simpl. rewrite !count_of_cons. destruct (Z.eqb_spec x v); [congruence|].
      split; [lia|]. split; [lia|]. split; [|by apply sublist_skip].
      intros u Hu'. rewrite !count_of_cons. destruct (Z.eqb_spec x u); [|by apply Hu].
      rewrite Hu; done.
Qed.

Lemma wrap32_small z : 0 <= z < 2 ^ 32 -> wrap32 z = z.
Proof. intros. unfold wrap32. by apply Z.mod_small. Qed.

Lemma wrap32_pred_succ j : 0 <= j < 2 ^ 32 -> wrap32 (wrap32 (j - 1) + 1) = j.
Proof.
  intros Hj. unfold wrap32. rewrite Zplus_mod_idemp_l.
  replace (j - 1 + 1) with j by lia. apply Z.mod_small. lia.
Qed.

Lemma fill_loop_kept omit v rest : forall j io is subset,
  (io <= length omit)%nat ->
  StronglySorted Z.lt (drop io omit) ->
  Forall (fun t => j <= t < j + Z.of_nat (count_of v rest)) (drop io omit) ->
  0 <= j -> j + Z.of_nat (count_of v rest) <= 2 ^ 32 ->
  (is + length (kept (drop io omit) j v rest) <= length subset)%nat ->
  fill_loop omit (Z.of_nat (length omit)) v rest (wrap32 (j - 1)) io is subset =
  Ret (wrap32 (j + Z.of_nat (count_of v rest) - 1), length omit,
       (is + length (kept (drop io omit) j v rest))%nat,
       write_from is (kept (drop io omit) j v rest) subset).
Proof.
  induction rest as [|x rest IH]; intros j io is subset Hio Hs Hf Hj Hjc Hlen.
  - change (count_of v []) with 0%nat in *.
    destruct (drop io omit) as [|t pending] eqn:Hd.
    + assert (io = length omit).
      { pose proof (length_drop omit io) as E. rewrite Hd in E. simpl in E. lia. }
      subst io. simpl. by rewrite Z.add_0_r, Nat.add_0_r.
    + inversion Hf as [|? ? Ht]. lia.
  - rewrite count_of_cons in Hf, Hjc |- *. cbn [fill_loop]. outcome_simpl.
    destruct (Z.eqb_spec x v) as [->|Hxv].
    + rewrite ?Z.eqb_refl in *. rewrite Nat2Z.inj_succ in Hf, Hjc.
      rewrite wrap32_pred_succ by lia.
      destruct (drop io omit) as [|t pending] eqn:Hd.
      * assert (io = length omit).
        { pose proof (length_drop omit io) as E. rewrite Hd in E. simpl in E. lia. }
        subst io. rewrite Z.ltb_irrefl. cbn -[Nat.ltb]. outcome_simpl.
        simpl kept in Hlen |- *. rewrite Z.eqb_refl in Hlen |- *. cbn -[Nat.ltb] in Hlen |- *.
        destruct (Nat.ltb_spec is (length subset)); [|lia].
        specialize (IH (j + 1) (length omit) (S is) (<[is:=v]> subset)).
        rewrite Hd in IH. replace (j + 1 - 1) with j in IH by lia.
        rewrite wrap32_small in IH by lia.
        rewrite IH; [|lia|constructor|constructor|lia|lia|rewrite length_insert; lia].
        rewrite Nat2Z.inj_succ, Nat.add_succ_r.
        by replace (j + Z.succ (Z.of_nat (count_of v rest)) - 1)
          with (j + 1 + Z.of_nat (count_of v rest) - 1) by lia.
      * assert (Hlt : (io < length omit)%nat).
        { pose proof (length_drop omit io) as E. rewrite Hd in E. simpl in E. lia. }
        assert (Ho : omit !! io = Some t).
        { rewrite <- (Nat.add_0_r io), <- lookup_drop, Hd. done. }
        assert (Hd' : drop (S io) omit = pending).
        { apply drop_S in Ho. rewrite Hd in Ho. by injection Ho. }
        pose proof Hs as Hs0. pose proof Hf as Hf0.
        apply StronglySorted_inv in Hs as [Hs Hgt].
        rewrite Forall_cons in Hf. destruct Hf as [Ht Hf].
        rewrite (proj2 (Z.ltb_lt _ _)) by lia. cbn -[Nat.ltb]. outcome_simpl.
        unfold at_. rewrite Ho. cbn -[Nat.ltb].
        simpl kept in Hlen |- *. rewrite Z.eqb_refl in Hlen |- *.
        destruct (Z.eqb_spec j t) as [<-|Hjt].
        -- cbn -[Nat.ltb].
           specialize (IH (j + 1) (S io) is subset).
           rewrite Hd' in IH. replace (j + 1 - 1) with j in IH by lia.
           rewrite wrap32_small in IH by lia.
           rewrite IH; [|lia|done| |lia|lia|lia].
           ++ rewrite Nat2Z.inj_succ.
              by replace (j + Z.succ (Z.of_nat (count_of v rest)) - 1)
                with (j + 1 + Z.of_nat (count_of v rest) - 1) by lia.
           ++ rewrite Forall_forall in Hf, Hgt |- *. intros t' Ht'.
              specialize (Hf t' Ht'). specialize (Hgt t' Ht'). lia.
        -- cbn -[Nat.ltb] in Hlen |- *.
           destruct (Nat.ltb_spec is (length subset)); [|lia].
           specialize (IH (j + 1) io (S is) (<[is:=v]> subset)).
           rewrite Hd in IH. replace (j + 1 - 1) with j in IH by lia.
           rewrite wrap32_small in IH by lia.
           rewrite IH; [|lia|done| |lia|lia|rewrite length_insert; lia].
           ++ rewrite Nat2Z.inj_succ, Nat.add_succ_r.
              by replace (j + Z.succ (Z.of_nat (count_of v rest)) - 1)
                with (j + 1 + Z.of_nat (count_of v rest) - 1) by lia.
           ++ constructor; [lia|].
              rewrite Forall_forall in Hf, Hgt |- *. intros t' Ht'.
              specialize (Hf t' Ht'). specialize (Hgt t' Ht'). lia.
    + rewrite ?(proj2 (Z.eqb_neq x v) Hxv) in Hf, Hjc.
      set (pending := drop io omit) in *.
      cbn -[Nat.ltb]. outcome_simpl. cbn -[Nat.ltb].
      simpl kept in Hlen |- *. rewrite ?(proj2 (Z.eqb_neq x v) Hxv) in Hlen |- *.
      cbn -[Nat.ltb] in Hlen |- *.
      destruct (Nat.ltb_spec is (length subset)); [|lia].
      unfold pending in *.
      rewrite IH; [|lia|done|done|lia|lia|rewrite length_insert; lia].
      by rewrite Nat.add_succ_r.
Qed.


Lemma sorted_nodup_lt (l : list Z) :
  Sorted Z.le l -> NoDup l -> StronglySorted Z.lt l.
Proof.
  intros Hs Hn. apply Sorted_StronglySorted in Hs; [|intros ???; lia].
  induction Hs as [|a l Hs IH Ha]; constructor.
  - apply IH. by inversion Hn.
  - inversion Hn as [|? ? Hna Hn']. rewrite Forall_forall in Ha |- *.
    intros y Hy. specialize (Ha y Hy). assert (y <> a) by (intros ->; done). lia.
Qed.

(** The vector [omit] of FillSubset after [std::sort]: strictly increasing
    occurrence numbers below [count], [num_skip] of them, when [count] is
    at most 2^32 so that [std::iota] on [uint32_t] does not wrap. *)
Lemma omit_sorted (c : nat) (num_skip : Z) g :
  Z.of_nat c <= 2 ^ 32 -> 0 <= num_skip <= Z.of_nat c ->
  let omit := std_sort (take (Z.to_nat num_skip)
                (std_shuffle (map (fun i => wrap32 (Z.of_nat i)) (seq 0 c)) g).1) in
  StronglySorted Z.lt omit /\
  Forall (fun t => 0 <= t < Z.of_nat c) omit /\
  length omit = Z.to_nat num_skip.
Proof.
  intros Hc Hns omit.
  assert (Hid : map (fun i => wrap32 (Z.of_nat i)) (seq 0 c) = map Z.of_nat (seq 0 c)).
  { apply map_ext_in. intros i Hi. apply in_seq in Hi. apply wrap32_small. lia. }
  pose proof (std_shuffle_perm (map (fun i => wrap32 (Z.of_nat i)) (seq 0 c)) g) as Hp.
  set (sh := (std_shuffle _ g).1) in *. clearbody sh. rewrite Hid in Hp.
  assert (Hnd : NoDup sh).
  { rewrite Hp. apply NoDup_ListNoDup, Injective_map_NoDup;
      [intros ???; lia|apply NoDup_ListNoDup, NoDup_seq]. }
  assert (Hf : Forall (fun t => 0 <= t < Z.of_nat c) sh).
  { rewrite Hp, Forall_forall. intros t Ht. apply list_elem_of_In, in_map_iff in Ht.
    destruct Ht as (i & <- & Hi). apply in_seq in Hi. lia. }
  assert (Hlen : length sh = c).
  { by rewrite Hp, length_map, length_seq. }
  pose proof (merge_sort_Permutation Z.le (take (Z.to_nat num_skip) sh)) as Hps.
  fold (std_sort (take (Z.to_nat num_skip) sh)) in Hps. fold omit in Hps.
  split; [|split].
  - apply sorted_nodup_lt.
    + apply Sorted_merge_sort. intros x y. lia.
    + rewrite Hps. by apply (sublist_NoDup _ sh), sublist_take.
  - rewrite Hps. by apply Forall_take.
  - rewrite Hps, length_take. lia.
Qed.


Lemma count_of_replicate_app v u n :
  u <> v -> count_of v (replicate n v ++ [u]) = n.
Proof.
  intros Huv. induction n as [|n IH]; simpl.
  - rewrite count_of_cons. destruct (Z.eqb_spec u v); [congruence|]. done.
  - rewrite count_of_cons, Z.eqb_refl. by rewrite IH.
Qed.

(** A run of [m] occurrences none of which is the next one to omit, once
    [*subset] is full. *)
Lemma fill_loop_no_match omit ns v m : forall o io is subset t rest,
  omit !! io = Some t -> Z.of_nat io < ns -> (length subset <= is)%nat ->
  0 <= o < 2 ^ 32 ->
  (forall s, 1 <= s <= Z.of_nat m -> wrap32 (o + s) <> t) ->
  fill_loop omit ns v (replicate m v ++ rest) o io is subset =
  fill_loop omit ns v rest (wrap32 (o + Z.of_nat m)) io is subset.
Proof.
  induction m as [|m IH]; intros o io is subset t rest Ho Hio Hl Hor Hne.
  - simpl. by rewrite Z.add_0_r, wrap32_small.
  - cbn [replicate app fill_loop]. rewrite Z.eqb_refl.
    rewrite (proj2 (Z.ltb_lt _ _)) by done. outcome_simpl.
    unfold at_ at 1. rewrite Ho. outcome_simpl.
    rewrite (proj2 (Z.eqb_neq _ _)) by (apply Hne; lia).
    destruct (Nat.ltb_spec is (length subset)); [lia|].
    assert (Hw : 0 <= wrap32 (o + 1) < 2 ^ 32)
      by (unfold wrap32; apply Z.mod_pos_bound; lia).
    rewrite (IH (wrap32 (o + 1)) io is subset t rest Ho Hio Hl Hw).
    + f_equal. unfold wrap32. rewrite Zplus_mod_idemp_l. f_equal. lia.
    + intros s Hs. unfold wrap32. rewrite Zplus_mod_idemp_l.
      replace (o + 1 + s) with (o + (s + 1)) by lia. apply Hne. lia.
Qed.

(** The smallest element of a sorted list is its head. *)
Lemma sorted_head_le (a x : Z) l :
  Sorted Z.le (a :: l) -> x ∈ a :: l -> a <= x.
Proof.
  intros Hs Hx. apply Sorted_StronglySorted in Hs; [|intros ???; lia].
  apply StronglySorted_inv in Hs as [_ Ha].
  apply elem_of_cons in Hx as [->|Hx]; [lia|].
  rewrite Forall_forall in Ha. by apply Ha.
Qed.

(** A sorted arrangement of two zeros and non-negative numbers starts with
    the two zeros. *)
Lemma sorted_two_zeros (l rest : list Z) :
  Sorted Z.le l -> l ≡ₚ 0 :: 0 :: rest -> Forall (fun t => 0 <= t) rest ->
  exists l', l = 0 :: 0 :: l'.
Proof.
  intros Hs Hp Hr.
  assert (Hnn : Forall (fun t => 0 <= t) l).
  { rewrite Hp. by repeat constructor. }
  destruct l as [|a [|b l']].
  - apply Permutation_length in Hp. simpl in Hp. lia.
  - apply Permutation_length in Hp. simpl in Hp. lia.
  - rewrite !Forall_cons in Hnn. destruct Hnn as (Ha & Hb & _).
    assert (a = 0) as ->.
    { assert (a <= 0); [|lia]. apply (sorted_head_le _ _ (b :: l') Hs).
      rewrite Hp. constructor. }
    apply Permutation_cons_inv in Hp.
    assert (b = 0) as ->.
    { assert (b <= 0); [|lia]. apply (sorted_head_le _ _ l').
      - by inversion Hs.
      - rewrite Hp. constructor. }
    by exists l'.
Qed.


(** [std::iota] on [uint32_t] over [2^32 + 1] slots: 0 comes twice. *)
Lemma iota_wraps (k : nat) :
  Z.of_nat k = 2 ^ 32 ->
  map (fun i => wrap32 (Z.of_nat i)) (seq 0 (S k)) ≡ₚ
    0 :: 0 :: map (fun i => wrap32 (Z.of_nat i)) (seq 1 (Nat.pred k)).
Proof.
  intros Hk. rewrite seq_S, map_app. destruct k as [|k']; [lia|].
  cbn [seq map Nat.pred].
  replace (wrap32 (Z.of_nat 0)) with 0 by reflexivity.
  replace (wrap32 (Z.of_nat (0 + S k'))) with 0
    by (rewrite Nat.add_0_l, Hk; reflexivity).
  constructor. symmetry. apply Permutation_cons_append.
Qed.

Lemma wrap32_nonneg_all (l : list nat) :
  Forall (fun t => 0 <= t) (map (fun i => wrap32 (Z.of_nat i)) l).
Proof.
  rewrite Forall_forall. intros t Ht. apply list_elem_of_In, in_map_iff in Ht.
  destruct Ht as (i & <- & _). unfold wrap32. apply Z.mod_pos_bound. lia.
Qed.


Lemma FillSubset_wraps (v u x : Z) (n : nat) :
  u <> v -> Z.of_nat n = 2 ^ 32 + 1 ->
  FillSubset (replicate n v ++ [u]) v (2 ^ 32 + 1) [x] =
  if checks then Abort else Ret [v].
Proof.
  intros Huv Hn. unfold FillSubset, resize_u32.
  rewrite count_of_replicate_app by done. rewrite Hn.
  replace (Z.to_nat (2 ^ 32 + 1)) with n by lia.
  rewrite (proj2 (Z.ltb_ge _ _)) by lia. outcome_simpl.
  pose proof (std_shuffle_perm (map (fun i => wrap32 (Z.of_nat i)) (seq 0 n))
                rng_default) as Hp.
  set (sh := (std_shuffle _ _).1) in *. clearbody sh.
  assert (Hsh : length sh = n) by (by rewrite Hp, length_map, length_seq).
  replace (resize n 0 sh) with sh by (rewrite <- Hsh; symmetry; apply resize_all).
  destruct n as [|k]; [lia|].
  rewrite (iota_wraps k) in Hp by lia.
  destruct (sorted_two_zeros (std_sort sh) _ (Sorted_merge_sort Z.le sh)
              (Permutation_trans (merge_sort_Permutation Z.le sh) Hp)
              (wrap32_nonneg_all _)) as [omit' Ho].
  assert (Hlo : length omit' = Nat.pred k).
  { pose proof (merge_sort_Permutation Z.le sh) as Hq.
    apply Permutation_length in Hq. fold (std_sort sh) in Hq.
    rewrite Ho in Hq. simpl in Hq. lia. }
  rewrite Ho. clear Ho Hp Hsh.
  assert (Hk : k = S (Nat.pred k - 1 + 1)) by lia.
  rewrite Hk. set (m := (Nat.pred k - 1)%nat).
  assert (Hm : Z.of_nat m = 2 ^ 32 - 2) by lia.
  clearbody m.
  cbn [replicate]. rewrite replicate_add. cbn [replicate app].
  rewrite <- app_assoc. cbn [app].
  cbn -[Nat.ltb replicate app]. rewrite !Z.eqb_refl. simpl.
  replace (wrap32 (wrap32 (wrap32 (-1) + 1) + 1)) with 1 by reflexivity.
  rewrite (fill_loop_no_match _ _ v m 1 1 1 [v] 0); [|done|lia|simpl; lia|lia|].
  2:{ intros s Hs. rewrite wrap32_small by lia. lia. }
  rewrite Hm. simpl. rewrite Z.eqb_refl. simpl.
  rewrite (proj2 (Z.eqb_neq u v) Huv). simpl.
  destruct omit' as [|o1 omit'']; [simpl in Hlo; lia|].
  unfold CHECK. simpl. by destruct checks.
Qed.


End Subset.

Section SubsetClaims.
Context `{Platform}.



End SubsetClaims.



(** * Further properties of the statistics, the planner, the harness and
    the clock *)

Section StatisticsBounds.
Context `{Platform}.

Lemma sorted_lookup_le (l : list Z) i j x y :
  StronglySorted Z.le l -> (i <= j)%nat -> l !! i = Some x -> l !! j = Some y -> x <= y.
Proof.
  intros Hs. revert i j. induction Hs as [|a l Hs IH Ha]; intros i j Hij Hx Hy; [done|].
  destruct i as [|i], j as [|j]; simpl in Hx, Hy.
  - injection Hx as <-. injection Hy as <-. lia.
  - injection Hx as <-. rewrite Forall_forall in Ha. apply Ha.
    by apply list_elem_of_lookup_2 with j.
  - lia.
  - apply (IH i j); [lia|done|done].
Qed.

Lemma min_range_loop_min (sorted : list Z) (h : nat) :
  StronglySorted Z.le sorted -> Forall (fun x => 0 <= x < 2 ^ 64) sorted ->
  let rng := fun j : nat => sorted !!! (j + h)%nat - sorted !!! j in
  forall n idx mr mi,
    (idx + n + h <= length sorted)%nat ->
    exists r, min_range_loop sorted h idx n mr mi = Ret r /\
      ((r = mi /\ forall j, (idx <= j < idx + n)%nat -> mr <= rng j) \/
       ((idx <= r < idx + n)%nat /\ rng r < mr /\
        forall j, (idx <= j < idx + n)%nat -> rng r <= rng j /\ ((j < r)%nat -> rng r < rng j))).
Proof.
  intros Hs Hb rng. induction n as [|n IH]; intros idx mr mi Hl; simpl.
  - exists mi. split; [done|]. left. split; [done|]. intros; lia.
  - destruct (at_in_bounds sorted idx) as (lo & -> & Hlo); [lia|].
    destruct (at_in_bounds sorted (idx + h)) as (hi & -> & Hhi); [lia|].
    outcome_simpl.
    assert (Hle : lo <= hi) by (apply (sorted_lookup_le sorted idx (idx + h)); [done|lia|done|done]).
    rewrite (proj2 (Z.leb_le _ _) Hle), CHECK_true. outcome_simpl.
    assert (Hr : wrap64 (hi - lo) = rng idx).
    { unfold rng. rewrite (list_lookup_total_correct _ _ _ Hlo), (list_lookup_total_correct _ _ _ Hhi).
      rewrite Forall_forall in Hb.
      pose proof (Hb lo (list_elem_of_lookup_2 _ _ _ Hlo)).
      pose proof (Hb hi (list_elem_of_lookup_2 _ _ _ Hhi)).
      unfold wrap64. apply Z.mod_small. lia. }
    rewrite Hr.
    destruct (Z.ltb_spec (rng idx) mr) as [Hlt|Hge].
    + destruct (IH (S idx) (rng idx) idx) as (r & E & Hc); [lia|].
      exists r. split; [done|]. right.
      destruct Hc as [[-> Hall]|(Hr1 & Hr2 & Hall)].
      * split; [lia|]. split; [done|]. intros j Hj.
        destruct (decide (j = idx)) as [->|Hne]; [lia|]. split; [apply Hall; lia|lia].
      * split; [lia|]. split; [lia|]. intros j Hj.
        destruct (decide (j = idx)) as [->|Hne]; [lia|]. apply Hall. lia.
    + destruct (IH (S idx) mr mi) as (r & E & Hc); [lia|].
      exists r. split; [done|].
      destruct Hc as [[-> Hall]|(Hr1 & Hr2 & Hall)].
      * left. split; [done|]. intros j Hj.
        destruct (decide (j = idx)) as [->|Hne]; [lia|]. apply Hall; lia.
      * right. split; [lia|]. split; [lia|]. intros j Hj.
        destruct (decide (j = idx)) as [->|Hne]; [lia|]. apply Hall. lia.
Qed.


(** MinRange on a sorted array of [Ticks], when the first range of the window does not wrap: it returns an index of the window whose range [sorted[r + half_count] - sorted[r]] is the smallest of the window, and the first such index. *)
Lemma MinRange_minimal (sorted : list Z) (idx_begin half_count : nat) :
  StronglySorted Z.le sorted -> Forall (fun x => 0 <= x < 2 ^ 64) sorted ->
  (0 < half_count)%nat -> (idx_begin + 2 * half_count <= length sorted)%nat ->
  sorted !!! (idx_begin + half_count)%nat - sorted !!! idx_begin < u64_max ->
  exists r, MinRange sorted idx_begin half_count = Ret r /\
    (idx_begin <= r < idx_begin + half_count)%nat /\
    forall j, (idx_begin <= j < idx_begin + half_count)%nat ->
      sorted !!! (r + half_count)%nat - sorted !!! r
        <= sorted !!! (j + half_count)%nat - sorted !!! j /\
      ((j < r)%nat -> sorted !!! (r + half_count)%nat - sorted !!! r
                        < sorted !!! (j + half_count)%nat - sorted !!! j).
Proof.
  intros Hs Hb Hh Hl Hfirst. unfold MinRange.
  destruct (min_range_loop_min sorted half_count Hs Hb half_count idx_begin u64_max 0)
    as (r & E & [[_ Hall]|(Hr1 & _ & Hall)]); [lia| |].
  - specialize (Hall idx_begin). simpl in Hall. lia.
  - exists r. split; [done|]. split; [done|]. exact Hall.
Qed.

Lemma mode_loop_sorted (sorted : list Z) :
  StronglySorted Z.le sorted -> Forall (fun x => 0 <= x < 2 ^ 64) sorted ->
  forall fuel idx_begin half_count,
    (half_count <= fuel)%nat ->
    (idx_begin + 2 * half_count <= length sorted)%nat ->
    (idx_begin < length sorted)%nat ->
    exists b h, mode_loop sorted fuel idx_begin half_count = Ret (b, h) /\
      (h <= 1)%nat /\ (b + 2 * h <= length sorted)%nat /\ (b < length sorted)%nat.
Proof.
  intros Hs Hb. induction fuel as [|fuel IH]; intros b0 h0 Hf Hl Hl'; simpl.
  - exists b0, h0. split; [done|]. lia.
  - destruct (Nat.ltb_spec 1 h0) as [Hlt|Hge].
    + unfold MinRange.
      destruct (min_range_loop_min sorted h0 Hs Hb h0 b0 u64_max 0) as (r & E & Hc); [lia|].
      rewrite E. outcome_simpl.
      pose proof (Nat.div2_odd h0) as Hd.
      apply IH; [destruct (Nat.odd h0); simpl in Hd; lia|..];
      destruct Hc as [[-> _]|(Hr & _)]; destruct (Nat.odd h0); simpl in Hd; lia.
    + exists b0, h0. split; [done|]. lia.
Qed.

(** [(x + y + 1) / 2] of two values of [[lo, hi]], [hi < 2^63]. *)
Lemma average_in_range lo hi x y :
  0 <= lo -> hi < 2 ^ 63 -> lo <= x <= hi -> lo <= y <= hi ->
  lo <= wrap64 (x + y + 1) / 2 <= hi.
Proof.
  intros. unfold wrap64. rewrite Z.mod_small by lia.
  split; [apply Z.div_le_lower_bound; lia|].
  assert ((x + y + 1) / 2 < hi + 1); [apply Z.div_lt_upper_bound; lia|lia].
Qed.

Lemma ModeOfSorted_in_range (sorted : list Z) lo hi :
  StronglySorted Z.le sorted -> sorted <> [] ->
  0 <= lo -> hi < 2 ^ 63 -> Forall (fun x => lo <= x <= hi) sorted ->
  exists m, ModeOfSorted sorted (length sorted) = Ret m /\ lo <= m <= hi.
Proof.
  intros Hs Hne Hlo Hhi Hr.
  assert (Hb : Forall (fun x => 0 <= x < 2 ^ 64) sorted).
  { eapply Forall_impl; [exact Hr|]. simpl. intros; lia. }
  pose proof (Nat.div2_odd (length sorted)) as Hd.
  destruct (mode_loop_sorted sorted Hs Hb (length sorted) 0 (Nat.div2 (length sorted)))
    as (b & h & E & Hh & Hbl & Hbl');
    [destruct (Nat.odd (length sorted)); simpl in Hd; lia..
    |destruct sorted; [done|simpl; lia]|].
  unfold ModeOfSorted. rewrite E. outcome_simpl.
  rewrite Forall_forall in Hr.
  destruct h as [|[|h]]; [|simpl|lia].
  - destruct (at_in_bounds sorted (b + 0)) as (x & -> & Hx); [lia|].
    outcome_simpl. exists x. split; [done|]. apply Hr. by eapply list_elem_of_lookup_2.
  - destruct (at_in_bounds sorted (b + 0)) as (x & -> & Hx); [lia|].
    destruct (at_in_bounds sorted (b + 1)) as (y & -> & Hy); [lia|].
    outcome_simpl. rewrite CHECK_true. outcome_simpl.
    eexists. split; [done|]. apply average_in_range; [done|done|..];
      apply Hr; by eapply list_elem_of_lookup_2.
Qed.

Lemma Mode_bounds (values : list Z) lo hi :
  values <> [] -> 0 <= lo -> hi < 2 ^ 63 -> Forall (fun x => lo <= x <= hi) values ->
  exists m sorted, Mode values = Ret (m, sorted) /\ sorted ≡ₚ values /\
    Sorted Z.le sorted /\ lo <= m <= hi.
Proof.
  intros Hne Hlo Hhi Hr.
  destruct (CountingSort_perm_sorted values) as [Hp Hs].
  unfold Mode, CountingSort.
  set (out := cs_expand _) in *.
  rewrite (Permutation_length Hp), Nat.eqb_refl, CHECK_true. outcome_simpl.
  destruct (ModeOfSorted_in_range out lo hi Hs) as (m & E & Hm); [| done | done | |].
  - intros ->. apply Permutation_nil in Hp. by subst.
  - by rewrite Hp.
  - rewrite E. outcome_simpl. exists m, out. split; [done|]. split; [done|].
    split; [by apply StronglySorted_Sorted|done].
Qed.

Lemma Median_bounds (values : list Z) lo hi :
  values <> [] -> 0 <= lo -> hi < 2 ^ 63 -> Forall (fun x => lo <= x <= hi) values ->
  exists m, Median values = Ret (m, std_sort values) /\ lo <= m <= hi.
Proof.
  intros Hne Hlo Hhi Hr.
  pose proof (merge_sort_Permutation Z.le values) as Hp. fold (std_sort values) in Hp.
  assert (Hr' : Forall (fun x => lo <= x <= hi) (std_sort values)) by (by rewrite Hp).
  rewrite Forall_forall in Hr'.
  assert (Hlen : (0 < length (std_sort values))%nat).
  { rewrite Hp. destruct values; [done|simpl; lia]. }
  unfold Median. pose proof (Nat.div2_odd (length (std_sort values))) as Hd.
  set (n := length (std_sort values)) in *.
  destruct (Nat.odd n) eqn:Ho; simpl in Hd.
  - destruct (at_in_bounds (std_sort values) (Nat.div2 n)) as (x & -> & Hx); [lia|].
    outcome_simpl. exists x. split; [done|]. apply Hr'. by eapply list_elem_of_lookup_2.
  - destruct (at_in_bounds (std_sort values) (Nat.div2 n)) as (x & -> & Hx); [lia|].
    outcome_simpl. destruct (Nat.eqb_spec (Nat.div2 n) 0) as [E0|_]; [lia|].
    destruct (at_in_bounds (std_sort values) (Nat.div2 n - 1)) as (y & -> & Hy); [lia|].
    outcome_simpl. eexists. split; [done|]. apply average_in_range; [done|done|..];
      apply Hr'; by eapply list_elem_of_lookup_2.
Qed.


(** Mode of a nonempty array of at most [INT_MAX = 2^31 - 1] values in
    [[lo, hi]], [0 <= lo], [hi < 2^63]: the array is left sorted (a
    permutation of the input) and the mode lies in [[lo, hi]].  The bound
    on the size keeps CountingSort's [int] counter from overflowing, so the
    counter of [cs_insert] is exact. *)
Lemma Mode_in_range (values : list Z) lo hi :
  values <> [] -> Z.of_nat (length values) <= 2 ^ 31 - 1 ->
  0 <= lo -> hi < 2 ^ 63 -> Forall (fun x => lo <= x <= hi) values ->
  exists m sorted, Mode values = Ret (m, sorted) /\ sorted ≡ₚ values /\
    Sorted Z.le sorted /\ lo <= m <= hi.
Proof. intros Hne _. by apply Mode_bounds. Qed.

(** Median of a nonempty array of values in [[lo, hi]], [0 <= lo], [hi < 2^63]: the array is left sorted and the median lies in [[lo, hi]]. *)
Lemma Median_in_range (values : list Z) lo hi :
  values <> [] -> 0 <= lo -> hi < 2 ^ 63 -> Forall (fun x => lo <= x <= hi) values ->
  exists m, Median values = Ret (m, std_sort values) /\ lo <= m <= hi.
Proof. apply Median_bounds. Qed.

Lemma MedianAbsoluteDeviation_bounds (values : list Z) (median r : Z) :
  values <> [] -> 0 <= median < 2 ^ 63 -> Forall (fun v => 0 <= v < 2 ^ 63) values ->
  Forall (fun v => Z.abs (v - median) <= r) values ->
  exists mad, MedianAbsoluteDeviation values median = Ret mad /\ 0 <= mad <= r.
Proof.
  intros Hne Hm Hv Hr. unfold MedianAbsoluteDeviation.
  destruct (Nat.eqb_spec (length values) 0) as [E|_]; [by destruct values|].
  rewrite CHECK_true. outcome_simpl.
  set (devs := map _ values).
  assert (Hdevs : devs = map (fun v => Z.abs (v - median)) values).
  { apply map_ext_in. intros v Hin. rewrite Forall_forall in Hv.
    specialize (Hv v (proj2 (list_elem_of_In _ _) Hin)).
    unfold to_i64. rewrite !(proj2 (Z.ltb_lt _ _)) by lia.
    unfold wrap64. apply Z.mod_small. lia. }
  destruct values as [|v0 values']; [done|].
  assert (Hr0 : 0 <= r) by (inversion Hr; lia).
  destruct (Median_bounds devs 0 (Z.min r (2 ^ 63 - 1))) as (m & E & Hmr);
    [by rewrite Hdevs|lia|lia| |].
  - rewrite Hdevs, Forall_map. rewrite Forall_forall in Hv, Hr |- *.
    intros v Hin. specialize (Hv v Hin). specialize (Hr v Hin). lia.
  - rewrite E. outcome_simpl. exists m. split; [done|lia].
Qed.

(** MedianAbsoluteDeviation of a nonempty array of values below [2^63], around a median below [2^63]: when every value is within [r] of the median, the result lies in [[0, r]]. *)
Lemma MedianAbsoluteDeviation_bound (values : list Z) (median r : Z) :
  values <> [] -> 0 <= median < 2 ^ 63 -> Forall (fun v => 0 <= v < 2 ^ 63) values ->
  Forall (fun v => Z.abs (v - median) <= r) values ->
  exists mad, MedianAbsoluteDeviation values median = Ret mad /\ 0 <= mad <= r.
Proof. apply MedianAbsoluteDeviation_bounds. Qed.

Lemma timed_samples_in_range (k n : nat) lo hi :
  0 <= lo -> hi < 2 ^ 64 -> (forall j, (k <= j)%nat -> lo <= tick_delta j <= hi) ->
  Forall (fun x => lo <= x <= hi) (timed_samples k n).
Proof.
  intros Hlo Hhi Ht. unfold timed_samples. rewrite Forall_map, Forall_forall.
  intros i _. specialize (Ht (k + i)%nat ltac:(lia)).
  unfold wrap64. rewrite Z.mod_small by lia. lia.
Qed.

Lemma central_estimate_in_range (p : Params) (samples : list Z) lo hi est sorted :
  samples <> [] -> 0 <= lo -> hi < 2 ^ 63 -> Forall (fun x => lo <= x <= hi) samples ->
  central_estimate p samples = Ret (est, sorted) ->
  lo <= est <= hi /\ sorted ≡ₚ samples.
Proof.
  intros Hne Hlo Hhi Hr E. unfold central_estimate in E.
  destruct (_ <=? _).
  - destruct (Mode_bounds samples lo hi) as (m & s & E' & Hp & _ & Hm); [done..|].
    rewrite E' in E. injection E as <- <-. done.
  - destruct (Median_bounds samples lo hi) as (m & E' & Hm); [done..|].
    rewrite E' in E. injection E as <- <-. split; [done|].
    apply merge_sort_Permutation.
Qed.

Lemma sus_rounds_in_range (max_rel_mad : Double) (p : Params) (max_abs_mad : Z) lo hi :
  0 <= lo -> hi < 2 ^ 63 ->
  forall rounds spe samples k est rel_mad e r k',
  (forall j, (k <= j)%nat -> lo <= tick_delta j <= hi) ->
  samples <> [] -> Forall (fun x => lo <= x <= hi) samples -> lo <= est <= hi ->
  sus_rounds max_rel_mad p max_abs_mad rounds spe samples k est rel_mad = Ret (e, r, k') ->
  lo <= e <= hi.
Proof.
  intros Hlo Hhi. induction rounds as [|rounds IH];
    intros spe samples k est rel_mad e r k' Ht Hne Hs He E; simpl in E.
  - by injection E as -> _ _.
  - apply bind_Ret_inv in E as [_ [_ E]].
    apply bind_Ret_inv in E as [[est' sorted] [Hce E]].
    assert (Hall : Forall (fun x => lo <= x <= hi) (samples ++ timed_samples k (Z.to_nat spe))).
    { apply Forall_app. split; [done|]. apply timed_samples_in_range; [lia|lia|done]. }
    assert (Hne' : samples ++ timed_samples k (Z.to_nat spe) <> []) by (by destruct samples).
    destruct (central_estimate_in_range p (samples ++ timed_samples k (Z.to_nat spe))
                lo hi est' sorted Hne' Hlo Hhi Hall Hce) as [Hest Hp].
    simpl in E. apply bind_Ret_inv in E as [_ [_ E]].
    apply bind_Ret_inv in E as [abs_mad [_ E]].
    destruct (_ || _).
    + by injection E as -> _ _.
    + eapply IH; [|..|exact E].
      * intros j Hj. apply Ht. lia.
      * intros ->. apply Permutation_nil in Hp. by destruct samples.
      * by rewrite Hp.
      * done.
Qed.

(** When every [Stop() - Start()] delta the sampler observes lies in [[lo, hi]], [0 <= lo], [hi < 2^63], the estimate SampleUntilStable returns lies in [[lo, hi]]. *)
Lemma SampleUntilStable_in_range (max_rel_mad : Double) (p : Params) (k : nat) lo hi
    est rel_mad k' :
  0 <= lo -> hi < 2 ^ 63 -> (forall j, (k <= j)%nat -> lo <= tick_delta j <= hi) ->
  SampleUntilStable max_rel_mad p k = Ret (est, rel_mad, k') ->
  lo <= est <= hi.
Proof.
  intros Hlo Hhi Ht E. unfold SampleUntilStable in E.
  apply bind_Ret_inv in E as [_ [_ E]].
  assert (H0 : lo <= wrap64 (tick_delta k) <= hi).
  { specialize (Ht k (le_n k)). unfold wrap64. rewrite Z.mod_small by lia. lia. }
  eapply sus_rounds_in_range; [done|done|..|exact E].
  - intros j Hj. apply Ht. lia.
  - done.
  - by constructor.
  - done.
Qed.

End StatisticsBounds.

Section SamplerZero.
Context `{Platform}.

Lemma central_estimate_exists (p : Params) (samples : list Z) lo hi :
  samples <> [] -> 0 <= lo -> hi < 2 ^ 63 -> Forall (fun x => lo <= x <= hi) samples ->
  exists est sorted, central_estimate p samples = Ret (est, sorted) /\
    lo <= est <= hi /\ sorted ≡ₚ samples.
Proof.
  intros Hne Hlo Hhi Hr. unfold central_estimate. destruct (_ <=? _).
  - destruct (Mode_bounds samples lo hi) as (m & s & E & Hp & _ & Hm); [done..|].
    by exists m, s.
  - destruct (Median_bounds samples lo hi) as (m & E & Hm); [done..|].
    exists m, (std_sort samples). split; [done|]. split; [done|].
    apply merge_sort_Permutation.
Qed.

(** C3 (as amended): with NANOBENCHMARK_CHECK compiled out, a zero central
    estimate is neither rejected nor a reason to keep sampling.  On a
    closure whose every timed delta is 0, SampleUntilStable returns the
    estimate 0, after at most one sampling round of
    [p.min_samples_per_eval] samples (none when [p.max_evals = 0]); the
    bound on [p.min_samples_per_eval] keeps the sample buffer within
    [std::vector]'s [max_size()] and CountingSort's [int] counter. *)
Theorem SampleUntilStable_zero_returned (max_rel_mad : Double) (p : Params) (k : nat) :
  checks = false ->
  (forall j, (k <= j)%nat -> tick_delta j = 0) ->
  0 <= min_samples_per_eval p < 2 ^ 31 - 1 ->
  exists rel_mad k', SampleUntilStable max_rel_mad p k = Ret (0, rel_mad, k') /\
    (k' <= k + 1 + Z.to_nat (min_samples_per_eval p))%nat.
Proof.
  intros Hc Ht Hm. unfold SampleUntilStable. cbv zeta.
  rewrite (Ht k (le_n k)). change (wrap64 0) with 0. rewrite Z.eqb_refl, Z.max_id.
  unfold reserve.
  rewrite (proj2 (Z.ltb_ge _ _))
    by (unfold wrap64, vector_max_size; rewrite Z.mod_small by lia; lia).
  outcome_simpl.
  destruct (Z.to_nat (max_evals p)) as [|rounds].
  - simpl. eexists _, _. split; [reflexivity|lia].
  - cbn [sus_rounds]. unfold reserve. simpl length.
    rewrite (proj2 (Z.ltb_ge _ _))
      by (unfold wrap64, vector_max_size; rewrite Z.mod_small by lia; lia).
    outcome_simpl.
    set (samples := [0] ++ timed_samples (S k) (Z.to_nat (min_samples_per_eval p))).
    assert (Hs : Forall (fun x => 0 <= x <= 0) samples).
    { apply Forall_app. split; [repeat constructor; lia|].
      apply timed_samples_in_range; [lia|lia|]. intros j Hj. rewrite Ht by lia. lia. }
    destruct (central_estimate_exists p samples 0 0) as (est & sorted & E & He & Hp);
      [done|lia|lia|done|].
    rewrite E. outcome_simpl. assert (est = 0) as -> by lia.
    unfold CHECK. rewrite Hc. simpl. outcome_simpl.
    destruct (MedianAbsoluteDeviation_bounds sorted 0 0) as (mad & Em & Hmad).
    + intros ->. apply Permutation_nil in Hp. done.
    + lia.
    + rewrite Hp. refine (Forall_impl _ _ _ Hs _). intros x Hx. lia.
    + rewrite Hp. refine (Forall_impl _ _ _ Hs _). intros x Hx. lia.
    + rewrite Em. outcome_simpl. assert (mad = 0) as -> by lia.
      rewrite (proj2 (Z.leb_le 0 _)).
      2:{ unfold wrap64. apply Z.div_pos; [apply Z.mod_pos_bound|]; lia. }
      rewrite orb_true_r. eexists _, _. split; [reflexivity|]. lia.
Qed.

End SamplerZero.

Section TimerBounds.
Context `{Platform}.

Lemma timer_reps_in_range (N : nat) lo hi :
  (0 < N)%nat -> 0 <= lo -> hi < 2 ^ 63 ->
  forall reps k, (forall j, (k <= j)%nat -> lo <= tick_delta j <= hi) ->
  exists l, timer_reps N reps k = Ret (l, (k + reps * N)%nat) /\ length l = reps /\
    Forall (fun x => lo <= x <= hi) l.
Proof.
  intros HN Hlo Hhi. induction reps as [|reps IH]; intros k Ht; simpl.
  - exists []. split; [by rewrite Nat.add_0_r|]. done.
  - destruct (Mode_bounds (timed_samples k N) lo hi) as (m & s & E & _ & _ & Hm).
    + unfold timed_samples. destruct N; [lia|]. done.
    + done.
    + done.
    + apply timed_samples_in_range; [lia|lia|done].
    + rewrite E. outcome_simpl.
      destruct (IH (k + N)%nat) as (l & E' & Hl & Hf); [intros j Hj; apply Ht; lia|].
      rewrite E'. outcome_simpl. exists (m :: l).
      split; [f_equal; f_equal; lia|]. split; [simpl; lia|]. by constructor.
Qed.

(** TimerResolution, with at least one sample, times [kTimerSamples * kTimerSamples] intervals and, when every delta lies in [[lo, hi]] with [0 <= lo] and [hi < 2^63], returns a value in [[lo, hi]]. *)
Lemma TimerResolution_in_range (kTimerSamples k : nat) lo hi :
  (0 < kTimerSamples)%nat -> 0 <= lo -> hi < 2 ^ 63 ->
  (forall j, (k <= j)%nat -> lo <= tick_delta j <= hi) ->
  exists res, TimerResolution kTimerSamples k =
    Ret (res, (k + kTimerSamples * kTimerSamples)%nat) /\ lo <= res <= hi.
Proof.
  intros HN Hlo Hhi Ht. unfold TimerResolution.
  destruct (timer_reps_in_range kTimerSamples lo hi HN Hlo Hhi kTimerSamples k Ht)
    as (l & E & Hl & Hf).
  rewrite E. outcome_simpl.
  destruct (Mode_bounds l lo hi) as (m & s & E' & _ & _ & Hm);
    [destruct l; simpl in Hl; [lia|done]|done|done|done|].
  rewrite E'. outcome_simpl. by exists m.
Qed.
End TimerBounds.

Section PlannerProperties.
Context `{Platform}.

Lemma std_unique_cons_spec (l : list Z) : forall x,
  (forall z, z ∈ std_unique (x :: l) <-> z ∈ x :: l) /\
  (Sorted Z.le (x :: l) ->
     StronglySorted Z.lt (std_unique (x :: l)) /\
     Forall (fun z => x <= z) (std_unique (x :: l))).
Proof.
  induction l as [|y l IH]; intros x.
  - simpl. split; [done|]. intros _. split; repeat constructor. lia.
  - destruct (IH y) as [Hm Hs]. cbn [std_unique]. fold (std_unique (y :: l)).
    destruct (Z.eqb_spec x y) as [->|Hxy].
    + split.
      * intros z. rewrite Hm, !elem_of_cons. tauto.
      * intros Hsort. inversion Hsort as [|? ? Hsort' _].
        destruct (Hs Hsort') as [Hs1 Hs2]. split; [done|].
        eapply Forall_impl; [exact Hs2|]. simpl. lia.
    + split.
      * intros z. rewrite (elem_of_cons (std_unique (y :: l))), (elem_of_cons (y :: l)), Hm.
        done.
      * intros Hsort. inversion Hsort as [|? ? Hsort' Hhd].
        inversion Hhd as [|? ? Hxy']; subst.
        destruct (Hs Hsort') as [Hs1 Hs2]. split.
        -- constructor; [done|]. eapply Forall_impl; [exact Hs2|]. simpl. lia.
        -- constructor; [lia|]. eapply Forall_impl; [exact Hs2|]. simpl. lia.
Qed.

(** UniqueInputs returns a strictly increasing array that holds exactly the values of the inputs. *)
Lemma UniqueInputs_sorted_same_elements (inputs : list Z) :
  StronglySorted Z.lt (UniqueInputs inputs) /\
  forall x, x ∈ UniqueInputs inputs <-> x ∈ inputs.
Proof.
  unfold UniqueInputs.
  pose proof (merge_sort_Permutation Z.le inputs) as Hp. fold (std_sort inputs) in Hp.
  pose proof (Sorted_merge_sort Z.le inputs) as Hs. fold (std_sort inputs) in Hs.
  destruct (std_sort inputs) as [|x l] eqn:E.
  - simpl. split; [constructor|]. intros z. rewrite <- Hp. done.
  - destruct (std_unique_cons_spec l x) as [Hm Hss]. split.
    + apply Hss, Hs.
    + intros z. rewrite Hm, <- Hp. done.
Qed.


Lemma num_skip_loop_range (unique : list Z) (p : Params) :
  forall m0 k m k', 0 <= m0 ->
  num_skip_loop unique p m0 k = Ret (m, k') -> 0 <= m <= m0.
Proof.
  induction unique as [|u rest IH]; intros m0 k m k' Hm0 E; simpl in E.
  - injection E as -> _. lia.
  - apply bind_Ret_inv in E as [[[total rm] k1] [_ E]]. simpl in E.
    assert (0 <= wrap64 (total - timer_resolution)) by (apply Z.mod_pos_bound; lia).
    apply IH in E; lia.
Qed.

(** When NumSkip returns [num_skip] and [precision_divisor] is not negative: with the minimum duration [min_duration] its loop finds, [num_skip] is 0 if [min_duration] is 0, and otherwise the ceiling of [precision_divisor / min_duration] (when the rounding-up sum does not wrap). *)
Lemma NumSkip_ceiling (unique : list Z) (p : Params) (k : nat) (num_skip : Z) (k' : nat) :
  NumSkip unique p k = Ret (num_skip, k') -> 0 <= precision_divisor p ->
  exists min_duration,
    num_skip_loop unique p u64_max k = Ret (min_duration, k') /\
    0 <= min_duration <= u64_max /\
    (min_duration = 0 -> num_skip = 0) /\
    (0 < min_duration -> precision_divisor p + min_duration - 1 < 2 ^ 64 ->
       (num_skip - 1) * min_duration < precision_divisor p <= num_skip * min_duration).
Proof.
  intros E Hpd. unfold NumSkip in E.
  apply bind_Ret_inv in E as [[m k1] [E1 E]]. simpl in E. injection E as <- ->.
  exists m. split; [done|].
  pose proof (num_skip_loop_range unique p u64_max k m k' ltac:(unfold u64_max; lia) E1).
  split; [done|]. split.
  - intros ->. done.
  - intros Hm Hov. rewrite (proj2 (Z.eqb_neq m 0)) by lia.
    unfold wrap64. rewrite Z.mod_small by lia.
    pose proof (Z.div_mod (precision_divisor p + m - 1) m ltac:(lia)).
    pose proof (Z.mod_pos_bound (precision_divisor p + m - 1) m ltac:(lia)).
    nia.
Qed.

Lemma fill_loop_absent omit num_skip v (full : list Z) :
  forall o io (pre rest : list Z), count_of v full = 0%nat ->
  exists is',
    fill_loop omit num_skip v full o io (length pre) (pre ++ rest)
      = Ret (o, io, is', pre ++ take (length rest) full ++ drop (length full) rest).
Proof.
  induction full as [|x full IH]; intros o io pre rest Hc; simpl.
  - eexists. by rewrite take_nil.
  - rewrite count_of_cons in Hc. destruct (Z.eqb_spec x v); [lia|].
    outcome_simpl. rewrite length_app.
    destruct rest as [|y rest].
    + rewrite Nat.add_0_r, Nat.ltb_irrefl, app_nil_r.
      destruct (IH o io pre [] Hc) as [is' E]. rewrite app_nil_r in E.
      exists is'. rewrite E. simpl. by rewrite drop_nil.
    + simpl length. destruct (Nat.ltb_spec (length pre) (length pre + S (length rest)));
        [|lia].
      rewrite insert_app_r_alt, Nat.sub_diag by lia. simpl.
      replace (pre ++ x :: rest) with ((pre ++ [x]) ++ rest) by (by rewrite <- app_assoc).
      replace (S (length pre)) with (length (pre ++ [x])) by (rewrite length_app; simpl; lia).
      destruct (IH o io (pre ++ [x]) rest Hc) as [is' E].
      exists is'. rewrite E. by rewrite <- app_assoc.
Qed.

(** With checks disabled, FillSubset for a value that does not occur in
    [full] omits nothing, whatever [num_skip] asks for (one that fits the
    [uint32_t] vector): it copies [full] into [*subset] from its start, as
    far as [*subset] reaches, and leaves the rest of [*subset] as it was. *)
Lemma FillSubset_absent_copies (full subset : list Z) (v num_skip : Z) :
  checks = false -> count_of v full = 0%nat -> 0 <= num_skip <= 2 ^ 61 - 1 ->
  FillSubset full v num_skip subset
    = Ret (take (length subset) full ++ drop (length full) subset).
Proof.
  intros Hc Hcnt Hns. unfold FillSubset, resize_u32. rewrite Hcnt.
  rewrite (proj2 (Z.ltb_ge _ _)) by lia. cbn [seq map std_shuffle fst].
  outcome_simpl.
  destruct (fill_loop_absent (std_sort (resize (Z.to_nat num_skip) 0 [])) num_skip v full
              (wrap32 (-1)) 0 [] subset Hcnt) as (is' & E).
  simpl in E. rewrite E. outcome_simpl.
  unfold CHECK. rewrite Hc. reflexivity.
Qed.

End PlannerProperties.

Section HarnessProperties.
Context `{Platform}.

Lemma measure_loop_prefix p full num_skip total overhead overhead_skip unique :
  forall i0 subset max_rel_mad results k e results' k',
  (i0 <= length results)%nat ->
  measure_loop p full num_skip total overhead overhead_skip unique i0 subset
    max_rel_mad results k = Ret (e, results', k') ->
  exists i, (i0 <= i <= i0 + length unique)%nat /\ (i <= length results)%nat /\
    (forall j, (i0 <= j < i)%nat ->
       exists r, results' !! j = Some r /\ unique !! (j - i0)%nat = Some (r_input r)) /\
    (forall j, (j < i0 \/ i <= j)%nat -> results' !! j = results !! j) /\
    ((e = Exit_done /\ i = (i0 + length unique)%nat) \/ e = Exit_total i).
Proof.
  induction unique as [|u rest IH];
    intros i0 subset max_rel_mad results k e results' k' Hi0 E; simpl in E.
  - injection E as <- <- _. exists i0. split; [simpl; lia|]. split; [done|].
    split; [intros; lia|]. split; [done|]. left. simpl. split; [done|lia].
  - apply bind_Ret_inv in E as [subset' [_ E]].
    apply bind_Ret_inv in E as [[[total_skip mrm] k1] [_ E]]. simpl in E.
    destruct (total <? total_skip).
    + injection E as <- <- _. exists i0. split; [simpl; lia|]. split; [done|].
      split; [intros; lia|]. split; [done|]. by right.
    + apply bind_Ret_inv in E as [results1 [Hst E]].
      unfold store in Hst. destruct (Nat.ltb_spec i0 (length results)) as [Hlt|];
        [|discriminate].
      injection Hst as <-.
      eapply IH in E; [|rewrite length_insert; lia].
      destruct E as (i & Hi & Hil & Hw & Hk & He).
      rewrite length_insert in Hil.
      exists i. split; [simpl; lia|]. split; [done|]. split; [|split].
      * intros j Hj. destruct (decide (j = i0)) as [->|Hne].
        -- eexists. split.
           ++ rewrite Hk by lia. by apply list_lookup_insert_eq.
           ++ by rewrite Nat.sub_diag.
        -- destruct (Hw j) as (r & Hr & Hu); [lia|].
           exists r. split; [done|].
           replace (j - i0)%nat with (S (j - S i0)) by lia. done.
      * intros j Hj. rewrite Hk by lia. apply list_lookup_insert_ne. lia.
      * destruct He as [[-> ->]| ->]; [left; simpl; split; [done|lia]|by right].
Qed.

(** Measure writes [results[j]] for the unique inputs [j] of a prefix of them, with [results[j].input] the j-th unique input, and leaves the other entries untouched; it returns 0 or the number of unique inputs, and in the latter case all of them were written. *)
Lemma Measure_writes_prefix (inputs : list Z) (results results' : list Result)
    (p : Params) (k k' : nat) (n : Z) :
  Measure inputs results p k = Ret (n, results', k') ->
  exists i, (i <= length (UniqueInputs inputs))%nat /\ (i <= length results)%nat /\
    (forall j, (j < i)%nat ->
       exists r, results' !! j = Some r /\ UniqueInputs inputs !! j = Some (r_input r)) /\
    (forall j, (i <= j)%nat -> results' !! j = results !! j) /\
    (n = 0 \/ (n = Z.of_nat i /\ i = length (UniqueInputs inputs))).
Proof.
  intros E. unfold Measure in E.
  apply bind_Ret_inv in E as [[[e results2] k2] [E F]]. simpl in F.
  injection F as Hn <- <-.
  unfold measure_run in E.
  apply bind_Ret_inv in E as [_ [_ E]].
  apply bind_Ret_inv in E as [[num_skip k3] [_ E]]. simpl in E.
  destruct (num_skip =? 0).
  { injection E as <- <- _. exists 0%nat. split; [lia|]. split; [lia|].
    split; [intros; lia|]. split; [done|]. by left. }
  apply bind_Ret_inv in E as [full [_ E]].
  apply bind_Ret_inv in E as [subset [_ E]].
  apply bind_Ret_inv in E as [[overhead k4] [_ E]]. simpl in E.
  apply bind_Ret_inv in E as [[overhead_skip k5] [_ E]]. simpl in E.
  destruct (overhead <? overhead_skip).
  { injection E as <- <- _. exists 0%nat. split; [lia|]. split; [lia|].
    split; [intros; lia|]. split; [done|]. by left. }
  apply bind_Ret_inv in E as [[[total mrm] k6] [_ E]]. simpl in E.
  eapply measure_loop_prefix in E; [|lia].
  destruct E as (i & Hi & Hil & Hw & Hk & He).
  exists i. split; [lia|]. split; [done|]. split; [|split].
  - intros j Hj. destruct (Hw j) as (r & Hr & Hu); [lia|].
    exists r. rewrite Nat.sub_0_r in Hu. done.
  - intros j Hj. apply Hk. lia.
  - destruct He as [[-> ->]| ->]; [right; split; [done|lia]|by left].
Qed.

End HarnessProperties.



Lemma starts_with_spec (pat s : list Ascii.ascii) :
  starts_with pat s = true <-> exists w, s = pat ++ w.
Proof.
  revert s. induction pat as [|c pat IH]; intros s; simpl.
  - split; [by exists s|done].
  - destruct s as [|d s].
    + split; [done|]. intros [w Hw]. discriminate.
    + rewrite andb_true_iff, IH. destruct (Ascii.eqb_spec c d) as [->|Hne].
      * split; [intros [_ [w ->]]; by exists w|].
        intros [w Hw]. injection Hw as Hs. split; [done|]. by exists w.
      * split; [intros [Hf _]; discriminate|]. intros [w Hw]. injection Hw as E1 _. congruence.
Qed.

Lemma find_from_absent (pat s : list Ascii.ascii) : forall i,
  (forall x y, s <> x ++ pat ++ y) -> find_from s pat i = npos.
Proof.
  induction s as [|c s IH]; intros i Hn; simpl.
  - destruct (starts_with pat []) eqn:E; [|done].
    apply starts_with_spec in E as [w Hw]. exfalso. apply (Hn [] w). done.
  - destruct (starts_with pat (c :: s)) eqn:E.
    + apply starts_with_spec in E as [w Hw]. exfalso. apply (Hn [] w). done.
    + apply IH. intros x y Hxy. apply (Hn (c :: x) y). by rewrite Hxy.
Qed.

Lemma find_from_here (pat s : list Ascii.ascii) i :
  starts_with pat s = true -> find_from s pat i = i.
Proof. intros E. destruct s; simpl; by rewrite E. Qed.

Lemma find_from_first (u pat w : list Ascii.ascii) : forall i,
  pat <> [] ->
  (forall x y, u ++ take (length pat - 1) pat <> x ++ pat ++ y) ->
  find_from (u ++ pat ++ w) pat i = i + Z.of_nat (length u).
Proof.
  induction u as [|c u IH]; intros i Hp Hn.
  - simpl. rewrite find_from_here; [lia|]. apply starts_with_spec. by exists w.
  - cbn [app]. unfold find_from at 1. fold find_from.
    destruct (starts_with pat (c :: u ++ pat ++ w)) eqn:E.
    + exfalso. apply starts_with_spec in E as [w' Hw'].
      change ((c :: u) ++ pat ++ w = pat ++ w') in Hw'.
      assert (Hpl : (1 <= length pat)%nat) by (destruct pat; [done|simpl; lia]).
      set (n := (length (c :: u) + (length pat - 1))%nat).
      assert (Hl : take n ((c :: u) ++ pat ++ w) = (c :: u) ++ take (length pat - 1) pat).
      { rewrite take_app, take_ge by (unfold n; lia). f_equal.
        replace (n - length (c :: u))%nat with (length pat - 1)%nat by (unfold n; lia).
        rewrite take_app. replace (length pat - 1 - length pat)%nat with 0%nat by lia.
        by rewrite take_0, app_nil_r. }
      assert (Hr : take n (pat ++ w') = pat ++ take (length u) w').
      { rewrite take_app, take_ge by (unfold n; simpl; lia). f_equal. f_equal.
        unfold n. simpl. lia. }
      apply (Hn [] (take (length u) w')). rewrite <- Hl, Hw', Hr. done.
    + rewrite IH; [simpl length; lia|done|].
      intros x y Hxy. apply (Hn (c :: x) y). simpl. by rewrite Hxy.
Qed.

Lemma rfind_below_found (s : list Ascii.ascii) (c : Ascii.ascii) (m : nat) : forall n,
  s !! m = Some c -> (m < n)%nat ->
  (forall j, (m < j < n)%nat -> s !! j <> Some c) ->
  rfind_below s c n = Z.of_nat m.
Proof.
  induction n as [|n IH]; intros Hm Hlt Hj; [lia|]. simpl.
  destruct (decide (n = m)) as [->|Hne].
  - rewrite Hm. by rewrite (proj2 (Ascii.eqb_eq c c) eq_refl).
  - destruct (s !! n) as [d|] eqn:Ed.
    + destruct (Ascii.eqb_spec d c) as [->|_].
      * exfalso. apply (Hj n); [lia|done].
      * apply IH; [done|lia|]. intros j Hj'. apply Hj. lia.
    + apply IH; [done|lia|]. intros j Hj'. apply Hj. lia.
Qed.

Lemma string_rfind_nonempty (s : list Ascii.ascii) c pos :
  s <> [] ->
  string_rfind s c pos = rfind_below s c (S (Z.to_nat (Z.min pos (Z.of_nat (length s) - 1)))).
Proof. by destruct s. Qed.

Lemma find_from_le (x pat y : list Ascii.ascii) : forall i,
  find_from (x ++ pat ++ y) pat i <= i + Z.of_nat (length x).
Proof.
  induction x as [|c x IH]; intros i.
  - rewrite find_from_here by (apply starts_with_spec; by exists y). simpl. lia.
  - simpl. destruct (starts_with pat (c :: x ++ pat ++ y)); [lia|].
    specialize (IH (i + 1)). lia.
Qed.

(** [s.find(pat) == npos] means that [pat] does not occur in [s]. *)
Lemma absent_of_find (s pat : list Ascii.ascii) :
  Z.of_nat (length s) < npos -> string_find s pat = npos ->
  forall x y, s <> x ++ pat ++ y.
Proof.
  intros Hl Hf x y ->. unfold string_find in Hf.
  pose proof (find_from_le x pat y 0) as Hle. rewrite !length_app in Hl.
  unfold npos, u64_max in *. lia.
Qed.

Section ClockProofs.
Context `{Platform}.

(** NominalClockRate of a brand string holding none of MHz, GHz, THz is 0. *)
Lemma NominalClockRate_no_unit (stod : list Ascii.ascii -> outcome Double)
    (d_mul : Double -> Z -> Double) (brand_string : list Ascii.ascii) :
  (forall x y, brand_string <> x ++ String.list_ascii_of_string "MHz" ++ y) ->
  (forall x y, brand_string <> x ++ String.list_ascii_of_string "GHz" ++ y) ->
  (forall x y, brand_string <> x ++ String.list_ascii_of_string "THz" ++ y) ->
  NominalClockRate_of stod d_mul brand_string = Ret d_zero.
Proof.
  intros HM HG HT. unfold NominalClockRate_of, clock_units. cbn [nominal_loop].
  unfold string_find. rewrite !find_from_absent by done.
  rewrite Z.eqb_refl. reflexivity.
Qed.

(** NominalClockRate of a brand string [a ++ " " ++ digits ++ "GHz" ++ b] with no MHz in it, no space in [digits] and no earlier GHz, is [std::stod(digits) * 1E9]. *)
Lemma NominalClockRate_parses_GHz (stod : list Ascii.ascii -> outcome Double)
    (d_mul : Double -> Z -> Double) (a digits b : list Ascii.ascii) :
  let brand_string := a ++ [" "%char] ++ digits ++ String.list_ascii_of_string "GHz" ++ b in
  Z.of_nat (length brand_string) < 2 ^ 63 ->
  " "%char ∉ digits ->
  (forall x y, brand_string <> x ++ String.list_ascii_of_string "MHz" ++ y) ->
  (forall x y, a ++ [" "%char] ++ digits ++ String.list_ascii_of_string "GH"
                 <> x ++ String.list_ascii_of_string "GHz" ++ y) ->
  NominalClockRate_of stod d_mul brand_string = (d ← stod digits; Ret (d_mul d (10 ^ 9))).
Proof.
  intros brand_string Hlen Hsp HM HG.
  unfold NominalClockRate_of, clock_units. cbn [nominal_loop].
  unfold string_find at 1. rewrite find_from_absent by done. rewrite Z.eqb_refl.
  set (u := a ++ [" "%char] ++ digits).
  set (GHz := String.list_ascii_of_string "GHz").
  assert (Hb : brand_string = u ++ GHz ++ b) by (unfold brand_string, u; by rewrite <- !app_assoc).
  assert (Hu : length u = (length a + 1 + length digits)%nat)
    by (unfold u; rewrite !length_app; simpl; lia).
  assert (HbL : length brand_string = (length u + 3 + length b)%nat)
    by (rewrite Hb, !length_app; simpl; lia).
  clearbody brand_string.
  assert (Hf : string_find brand_string GHz = Z.of_nat (length u)).
  { unfold string_find. rewrite Hb, find_from_first; [lia|done|].
    intros x y. unfold u. rewrite <- !app_assoc. apply HG. }
  rewrite Hf. rewrite (proj2 (Z.eqb_neq _ _)) by (unfold npos, u64_max; lia).
  assert (Hw : wrap64 (Z.of_nat (length u) - 1) = Z.of_nat (length a + length digits)).
  { unfold wrap64. rewrite Z.mod_small by lia. lia. }
  rewrite Hw.
  assert (Hr : string_rfind brand_string " "%char (Z.of_nat (length a + length digits))
               = Z.of_nat (length a)).
  { rewrite string_rfind_nonempty by (intros E; rewrite E in HbL; simpl in HbL; lia).
    rewrite Z.min_l by lia. rewrite Nat2Z.id.
    apply rfind_below_found; [|lia|].
    - rewrite Hb. unfold u. rewrite <- app_assoc, lookup_app_r by lia.
      by rewrite Nat.sub_diag.
    - intros j Hj. rewrite Hb. unfold u. rewrite <- !app_assoc.
      rewrite lookup_app_r by lia. cbn [app].
      replace (j - length a)%nat with (S (j - length a - 1)) by lia. simpl.
      rewrite lookup_app_l by lia. intros Hd. apply Hsp.
      by eapply list_elem_of_lookup_2. }
  rewrite Hr. rewrite (proj2 (Z.eqb_neq _ _)) by (unfold npos, u64_max; lia).
  unfold substr.
  assert (Hw1 : wrap64 (Z.of_nat (length a) + 1) = Z.of_nat (length a + 1)).
  { unfold wrap64. rewrite Z.mod_small by lia. lia. }
  assert (Hw2 : wrap64 (Z.of_nat (length u) - Z.of_nat (length a) - 1)
                = Z.of_nat (length digits)).
  { unfold wrap64. rewrite Z.mod_small by lia. lia. }
  rewrite Hw1, Hw2. rewrite (proj2 (Z.ltb_ge _ _)) by lia.
  outcome_simpl.
  rewrite Z.min_l by lia. rewrite !Nat2Z.id.
  replace (take (length digits) (drop (length a + 1) brand_string)) with digits.
  - reflexivity.
  - rewrite Hb. unfold u. rewrite <- !app_assoc.
    rewrite drop_app_ge by lia. replace (length a + 1 - length a)%nat with 1%nat by lia.
    change (drop 1 ([" "%char] ++ ?x)) with x. rewrite take_app_le by lia. by rewrite take_ge by lia.
Qed.

End ClockProofs.

Lemma u32_bytes_range (w : Z) : Forall (fun b => 0 <= b < 256) (u32_bytes w).
Proof.
  unfold u32_bytes. apply Forall_forall. intros x Hx.
  apply list_elem_of_In, in_map_iff in Hx as (i & <- & _).
  change 255 with (Z.ones 8). rewrite Z.land_ones by lia.
  apply Z.mod_pos_bound. lia.
Qed.

Lemma c_str_shape (bytes : list Z) :
  Forall (fun b => 0 <= b < 256) bytes ->
  (length (c_str bytes) <= length bytes)%nat /\
  Forall (fun ch => Ascii.N_of_ascii ch <> 0%N) (c_str bytes).
Proof.
  induction bytes as [|b rest IH]; intros Hr; [simpl; split; [lia|constructor]|].
  apply Forall_cons in Hr as [Hb Hr]. simpl.
  destruct (Z.eqb_spec b 0) as [->|Hne]; [simpl; split; [lia|constructor]|].
  destruct (IH Hr) as [IH1 IH2]. simpl. split; [lia|].
  constructor; [|done].
  rewrite Ascii.N_ascii_embedding by lia. lia.
Qed.

Lemma c_str_terminated (bytes : list Z) :
  (length (c_str (bytes ++ [0%Z])) <= length bytes)%nat.
Proof.
  induction bytes as [|b rest IH]; [done|]. simpl.
  destruct (b =? 0); simpl; lia.
Qed.

Section BrandProofs.
Context `{Platform}.

Lemma length_cpuid_bytes (Cpuid : Z -> Z -> Z * Z * Z * Z) (level : Z) :
  length (cpuid_bytes Cpuid level) = 16%nat.
Proof. unfold cpuid_bytes. by destruct (Cpuid level 0) as [[[a b] c] d]. Qed.

(** BrandString holds at most 48 characters and no NUL character, and is empty when leaf [0x80000000] reports no brand-string leaves. *)
Lemma BrandString_shape (Cpuid : Z -> Z -> Z * Z * Z * Z) :
  (length (BrandString Cpuid) <= 48)%nat /\
  Forall (fun ch => Ascii.N_of_ascii ch <> 0%N) (BrandString Cpuid) /\
  (fst (fst (fst (Cpuid 0x80000000 0))) < 0x80000004 -> BrandString Cpuid = []).
Proof.
  unfold BrandString. destruct (Cpuid 0x80000000 0) as [[[a0 b0] c0] d0]. simpl fst.
  destruct (Z.ltb_spec a0 0x80000004).
  - split; [simpl; lia|]. split; [constructor|done].
  - split; [|split; [|lia]].
    + etransitivity; [apply c_str_terminated|].
      * cbn [flat_map]. rewrite !length_app.
        rewrite !length_cpuid_bytes. simpl. lia.
    + apply c_str_shape.
      apply Forall_app; split; [|repeat constructor; lia].
      apply Forall_forall. intros x Hx. apply list_elem_of_In, in_flat_map in Hx as (i & _ & Hx).
      unfold cpuid_bytes in Hx. destruct (Cpuid _ 0) as [[[p q] r] s].
      apply in_flat_map in Hx as (w & _ & Hx).
      pose proof (u32_bytes_range w) as Hw. rewrite Forall_forall in Hw. by apply Hw, list_elem_of_In.
Qed.

End BrandProofs.

Section ReplicateProperties.
Context `{Platform}.

Lemma count_of_perm (v : Z) (l l' : list Z) : l ≡ₚ l' -> count_of v l = count_of v l'.
Proof. intros Hp. unfold count_of. by rewrite Hp. Qed.

Lemma count_of_concat_replicate (v : Z) (n : nat) (l : list Z) :
  count_of v (concat (replicate n l)) = (n * count_of v l)%nat.
Proof.
  induction n as [|n IH]; [done|]. simpl.
  unfold count_of in *. rewrite filter_app, length_app, IH. lia.
Qed.

(** When ReplicateInputs succeeds for more than one unique input, the
    shuffled array holds [copies = subset_ratio * num_skip] (wrapped to
    [size_t]) times the inputs: every value occurs [copies] times as often
    as in [inputs], and the array has [copies * num_inputs] elements. *)
Lemma ReplicateInputs_counts (inputs : list Z) (num_unique num_skip : Z) (p : Params)
    (full : list Z) :
  num_unique <> 1 -> ReplicateInputs inputs num_unique num_skip p = Ret full ->
  length full = (Z.to_nat (wrap64 (subset_ratio p * num_skip)) * length inputs)%nat /\
  forall v, count_of v full =
    (Z.to_nat (wrap64 (subset_ratio p * num_skip)) * count_of v inputs)%nat.
Proof.
  intros Hu E. unfold ReplicateInputs in E.
  rewrite (proj2 (Z.eqb_neq _ _) Hu) in E.
  unfold reserve in E. destruct (vector_max_size <? _); [discriminate|].
  outcome_simpl. injection E as <-.
  pose proof (std_shuffle_perm (concat (replicate (Z.to_nat (wrap64 (subset_ratio p * num_skip))) inputs)) rng_default) as Hp.
  split.
  - rewrite Hp, length_concat. clear.
    induction (Z.to_nat _) as [|n IH]; [done|]. simpl. lia.
  - intros v. rewrite (count_of_perm v _ _ Hp). apply count_of_concat_replicate.
Qed.

End ReplicateProperties.

(** ReplicateInputs of [1; 2; 2] for two unique inputs and [num_skip = 1]. *)
Lemma ReplicateInputs_counts_witness :
  let P := rational_platform false (fun _ => 0) in
  exists full, ReplicateInputs (H := P) [1; 2; 2] 2 1 (small_params false (fun _ => 0) 1 1)
                 = Ret full /\ length full = 6%nat /\ count_of 2 full = 4%nat.
Proof.
  intros P.
  assert (E : ReplicateInputs (H := P) [1; 2; 2] 2 1 (small_params false (fun _ => 0) 1 1)
                = Ret (std_shuffle (concat (replicate 2 [1; 2; 2])) rng_default).1)
    by reflexivity.
  destruct (ReplicateInputs_counts (H := P) [1; 2; 2] 2 1 (small_params false (fun _ => 0) 1 1)
              _ ltac:(discriminate) E) as [Hl Hc].
  eexists. split; [exact E|]. split; [exact Hl | exact (Hc 2)].
Defined.

(** ** Witnesses of the extra properties *)

(** MinRange on [1; 2; 4; 8], window [0, 2). *)
Lemma MinRange_minimal_witness :
  exists r, MinRange (H := rational_platform true (fun _ => 0)) [1; 2; 4; 8] 0 2 = Ret r /\
    (r < 2)%nat.
Proof.
  destruct (MinRange_minimal (H := rational_platform true (fun _ => 0)) [1; 2; 4; 8] 0 2)
    as (r & E & Hr & _).
  - repeat constructor; lia.
  - repeat constructor; lia.
  - lia.
  - simpl. lia.
  - vm_compute. reflexivity.
  - exists r. split; [exact E | lia].
Defined.

(** Mode of [3; 1; 2], values in [[0, 5]]. *)
Lemma Mode_in_range_witness :
  exists m sorted, Mode (H := rational_platform false (fun _ => 0)) [3; 1; 2] = Ret (m, sorted) /\
    0 <= m <= 5.
Proof.
  destruct (Mode_in_range (H := rational_platform false (fun _ => 0)) [3; 1; 2] 0 5)
    as (m & sorted & E & _ & _ & Hm).
  - done.
  - simpl. lia.
  - lia.
  - lia.
  - repeat constructor; lia.
  - exists m, sorted. split; [exact E | exact Hm].
Defined.

(** Median of [3; 1; 2], values in [[0, 5]]. *)
Lemma Median_in_range_witness :
  exists m, Median [3; 1; 2]
              = Ret (m, std_sort [3; 1; 2]) /\ 0 <= m <= 5.
Proof.
  destruct (Median_in_range [3; 1; 2] 0 5)
    as (m & E & Hm).
  - done.
  - lia.
  - lia.
  - repeat constructor; lia.
  - exists m. split; [exact E | exact Hm].
Defined.

(** MedianAbsoluteDeviation of [1; 2; 3] around 2, every value within 1. *)
Lemma MedianAbsoluteDeviation_bound_witness :
  exists mad, MedianAbsoluteDeviation (H := rational_platform false (fun _ => 0)) [1; 2; 3] 2
                = Ret mad /\ 0 <= mad <= 1.
Proof.
  apply (MedianAbsoluteDeviation_bound (H := rational_platform false (fun _ => 0)) [1; 2; 3] 2 1).
  - done.
  - lia.
  - repeat constructor; lia.
  - repeat constructor; simpl; lia.
Defined.

(** SampleUntilStable with every delta 5, bounds [[4, 6]]. *)
Lemma SampleUntilStable_in_range_witness :
  let P := rational_platform false (fun _ => 5) in
  SampleUntilStable (H := P) 0%Q (small_params false (fun _ => 5) 1 1) 0 = Ret (5, 0 # 5, 2%nat) /\
  4 <= 5 <= 6.
Proof.
  intros P.
  assert (E : SampleUntilStable (H := P) 0%Q (small_params false (fun _ => 5) 1 1) 0
                = Ret (5, 0 # 5, 2%nat)) by reflexivity.
  split; [exact E|].
  refine (SampleUntilStable_in_range (H := P) 0%Q (small_params false (fun _ => 5) 1 1) 0 4 6
            5 (0 # 5) 2 _ _ _ E).
  - lia.
  - lia.
  - intros j _. simpl. lia.
Defined.

(** TimerResolution with [kTimerSamples = 2] and every delta 5. *)
Lemma TimerResolution_in_range_witness :
  exists res, TimerResolution (H := rational_platform false (fun _ => 5)) 2 0 = Ret (res, 4%nat) /\
    4 <= res <= 6.
Proof.
  destruct (TimerResolution_in_range (H := rational_platform false (fun _ => 5)) 2 0 4 6)
    as (res & E & Hr).
  - lia.
  - lia.
  - lia.
  - intros j _. simpl. lia.
  - exists res. split; [exact E | exact Hr].
Defined.

(** NumSkip of [1; 2] with every delta 5 and [precision_divisor = 10]. *)
Lemma NumSkip_ceiling_witness :
  let P := rational_platform false (fun _ => 5) in
  NumSkip (H := P) [1; 2] (small_params false (fun _ => 5) 1 10) 0 = Ret (2, 4%nat) /\
  exists min_duration,
    num_skip_loop (H := P) [1; 2] (small_params false (fun _ => 5) 1 10) u64_max 0
      = Ret (min_duration, 4%nat) /\
    (2 - 1) * min_duration < 10 <= 2 * min_duration.
Proof.
  intros P.
  assert (E : NumSkip (H := P) [1; 2] (small_params false (fun _ => 5) 1 10) 0 = Ret (2, 4%nat))
    by reflexivity.
  split; [exact E|].
  destruct (NumSkip_ceiling (H := P) [1; 2] (small_params false (fun _ => 5) 1 10) 0 2 4 E)
    as (md & E2 & Hmd & _ & Hc).
  - simpl. lia.
  - assert (E3 : num_skip_loop (H := P) [1; 2] (small_params false (fun _ => 5) 1 10) u64_max 0
                   = Ret (5, 4%nat)) by reflexivity.
    rewrite E3 in E2. injection E2 as <-.
    exists 5. split; [exact E3|]. apply Hc; simpl; lia.
Defined.

(** FillSubset for 3, absent from [1; 7; 2], with checks disabled. *)
Lemma FillSubset_absent_copies_witness :
  FillSubset (H := rational_platform false (fun _ => 0)) [1; 7; 2] 3 1 [0; 0] = Ret [1; 7].
Proof.
  exact (FillSubset_absent_copies (H := rational_platform false (fun _ => 0))
           [1; 7; 2] [0; 0] 3 1 eq_refl eq_refl ltac:(lia)).
Defined.

(** Measure of [1; 2] with every delta 5 writes both entries. *)
Lemma Measure_writes_prefix_witness :
  let P := rational_platform false (fun _ => 5) in
  let R0 := @Build_Result P 0 0%Q 0%Q in
  let R1 := @Build_Result P 1 (0 # 2)%Q (0 # 5)%Q in
  let R2 := @Build_Result P 2 (0 # 2)%Q (0 # 5)%Q in
  Measure (H := P) [1; 2] [R0; R0] (small_params false (fun _ => 5) 1 10) 0
    = Ret (2, [R1; R2], 14%nat) /\
  exists i, (i <= 2)%nat /\ (2 = 0 \/ (2 = Z.of_nat i /\ i = 2%nat)).
Proof.
  intros P R0 R1 R2.
  assert (E : Measure (H := P) [1; 2] [R0; R0] (small_params false (fun _ => 5) 1 10) 0
                = Ret (2, [R1; R2], 14%nat)) by reflexivity.
  split; [exact E|].
  destruct (Measure_writes_prefix (H := P) [1; 2] [R0; R0] [R1; R2]
              (small_params false (fun _ => 5) 1 10) 0 14 2 E)
    as (i & Hi & _ & _ & _ & Hn).
  exists i. split; [exact Hi | exact Hn].
Defined.

(** NominalClockRate of "Intel Pentium 4". *)
Lemma NominalClockRate_no_unit_witness :
  let P := rational_platform false (fun _ => 0) in
  NominalClockRate_of (H := P) (fun _ => Ret 1%Q) (fun d _ => d)
    (String.list_ascii_of_string "Intel Pentium 4") = Ret (d_zero (Platform := P)).
Proof.
  intros P.
  apply (NominalClockRate_no_unit (H := P));
    (apply absent_of_find; [vm_compute; reflexivity | vm_compute; reflexivity]).
Defined.

(** NominalClockRate of "Intel(R) Core(TM) i7 CPU @ 3.20GHz". *)
Lemma NominalClockRate_parses_GHz_witness :
  let P := rational_platform false (fun _ => 0) in
  let stod := fun _ : list Ascii.ascii => Ret (16 # 5)%Q in
  let d_mul := fun (d : Q) (m : Z) => (d * inject_Z m)%Q in
  NominalClockRate_of (H := P) stod d_mul
    (String.list_ascii_of_string "Intel(R) Core(TM) i7 CPU @ 3.20GHz")
    = (d ← stod (String.list_ascii_of_string "3.20"); Ret (d_mul d (10 ^ 9))).
Proof.
  intros P stod d_mul.
  apply (NominalClockRate_parses_GHz (H := P) stod d_mul
           (String.list_ascii_of_string "Intel(R) Core(TM) i7 CPU @")
           (String.list_ascii_of_string "3.20") []).
  - vm_compute. reflexivity.
  - intros Hin. apply list_elem_of_In in Hin. simpl in Hin.
    repeat destruct Hin as [Hin|Hin]; try discriminate. done.
  - apply absent_of_find; vm_compute; reflexivity.
  - apply absent_of_find; vm_compute; reflexivity.
Defined.

(** BrandString when leaf [0x80000000] reports no brand string. *)
Lemma BrandString_shape_witness :
  BrandString (fun _ _ => (0x80000000, 0, 0, 0)) = [].
Proof.
  apply (proj2 (proj2 (BrandString_shape (fun _ _ => (0x80000000, 0, 0, 0))))).
  vm_compute. reflexivity.
Defined.

(** C3: every delta 0, checks disabled, one sample per round. *)
Lemma SampleUntilStable_zero_returned_witness :
  exists rel_mad k',
    SampleUntilStable (H := rational_platform false (fun _ => 0)) 0%Q
      (small_params false (fun _ => 0) 1 1) 0 = Ret (0, rel_mad, k') /\
    (k' <= 2)%nat.
Proof.
  apply (SampleUntilStable_zero_returned (H := rational_platform false (fun _ => 0))
           0%Q (small_params false (fun _ => 0) 1 1) 0).
  - reflexivity.
  - intros j _. reflexivity.
  - simpl. lia.
Defined.
